(** * SeeGreek: the Black-Scholes-Merton pricing engine

    A shallow embedding of [SeeGreek/options_calculator.py] over the real
    numbers, and the properties of its three functions
    [calculate_option_price], [calculate_option_greeks] and [is_itm_atm_otm].

    Python floats are read as real numbers.  The places where the Python
    code leaves the real line are kept as outcomes of their own: a float
    division by a zero divisor raises [ZeroDivisionError], and numpy's
    [log] and division produce [inf] or [nan] where the real function has no
    value.  [scipy.stats.norm] is the standard normal law: [norm_pdf] is its
    density and [norm_cdf] its distribution function.

    One effect of double precision is modelled beside this reading, because
    it changes the order of two returned prices: far in the tails
    [norm.cdf] underflows and returns exactly 0 or 1.  [ndtr] is [norm_cdf]
    with that cut-off, and [calculate_option_price_with] is the pricing
    function over a given distribution function. *)

From Stdlib Require Import Reals Lra String Factorial Lia.
Open Scope R_scope.

(** ** Outcomes of a Python call

    [Returns a]: the call returns [a], every intermediate value being a
    real number.  [ZeroDivisionError]: the call raises it.  [NonFinite]: an
    intermediate value is [inf] or [nan]; the reading over the reals stops
    there and says nothing about what the floats go on to produce. *)

Inductive outcome (A : Type) : Type :=
| Returns (a : A)
| ZeroDivisionError
| NonFinite.

Arguments Returns {A} a.
Arguments ZeroDivisionError {A}.
Arguments NonFinite {A}.

Definition bind {A B : Type} (m : outcome A) (k : A -> outcome B) : outcome B :=
  match m with
  | Returns a => k a
  | ZeroDivisionError => ZeroDivisionError
  | NonFinite => NonFinite
  end.

Notation "x <- m ;; k" := (bind m (fun x => k))
  (at level 61, m at next level, right associativity).

(** [a / b] on two Python floats (the arguments are floats, as the
    docstrings say). *)
Definition py_div (a b : R) : outcome R :=
  if Req_EM_T b 0 then ZeroDivisionError else Returns (a / b).

(** [a / b] where one operand is a [numpy.float64]: a zero divisor gives
    [inf] or [nan] and a warning, not an exception. *)
Definition np_div (a b : R) : outcome R :=
  if Req_EM_T b 0 then NonFinite else Returns (a / b).

(** [np.log]: [-inf] at zero and [nan] below. *)
Definition np_log (x : R) : outcome R :=
  if Rlt_dec 0 x then Returns (ln x) else NonFinite.

(** Python's [max(a, b)]: the first argument unless the second is larger. *)
Definition py_max (a b : R) : R :=
  if Rlt_dec a b then b else a.

(** ** The standard normal law ([scipy.stats.norm]) *)

(** [norm.pdf]: the Gaussian density. *)
Definition norm_pdf (x : R) : R := exp (- x ^ 2 / 2) / sqrt (2 * PI).

Lemma norm_pdf_continuity : continuity norm_pdf.
Proof. apply derivable_continuous. unfold norm_pdf. reg. Qed.

Lemma continuous_integrable (f : R -> R) (Hf : continuity f) (a b : R) :
  Riemann_integrable f a b.
Proof.
  destruct (Rle_dec a b) as [Hab | Hab].
  - apply continuity_implies_RiemannInt; [exact Hab | intros x _; apply Hf].
  - apply RiemannInt_P1, continuity_implies_RiemannInt;
      [lra | intros x _; apply Hf].
Qed.

(** The signed area under a continuous [f] between the origin and [x]. *)
Definition area (f : R -> R) (Hf : continuity f) (x : R) : R :=
  RiemannInt (continuous_integrable f Hf 0 x).

(** [norm.cdf]: the distribution function, one half at the origin plus the
    area under the density from the origin to [x].  It is the integral of
    the density from minus infinity: its derivative is the density
    ([norm_cdf_deriv]), it tends to zero on the left ([norm_cdf_limit_left])
    and no other function does both ([norm_cdf_unique]). *)
Definition norm_cdf (x : R) : R := 1 / 2 + area norm_pdf norm_pdf_continuity x.

(** ** options_calculator.py *)

(** [option_type] is a Python string, tested with [option_type == 'call']. *)
Definition is_call (option_type : string) : bool :=
  String.eqb option_type "call".

(** The expression bound to [d1], the same in both pricing functions.  Once
    it has a value, [spot], [volatility] and [sqrt time_to_expiry] are not
    zero ([d1_expr_divisors] below), so the divisions that follow it in
    [calculate_option_greeks] are divisions of real numbers. *)
Definition d1_expr (spot strike time_to_expiry volatility risk_free_rate
                    dividend_yield : R) : outcome R :=
  ratio <- py_div spot strike ;;
  l <- np_log ratio ;;
  np_div (l + (risk_free_rate - dividend_yield + 0.5 * volatility ^ 2)
              * time_to_expiry)
         (volatility * sqrt time_to_expiry).

Definition calculate_option_price (option_type : string)
    (spot strike time_to_expiry volatility risk_free_rate dividend_yield : R)
    : outcome R :=
  if Rle_dec time_to_expiry 0 then
    if is_call option_type then Returns (py_max 0 (spot - strike))
    else Returns (py_max 0 (strike - spot))
  else
    d1 <- d1_expr spot strike time_to_expiry volatility risk_free_rate
                  dividend_yield ;;
    let d2 := d1 - volatility * sqrt time_to_expiry in
    if is_call option_type then
      Returns (spot * exp (- dividend_yield * time_to_expiry) * norm_cdf d1
               - strike * exp (- risk_free_rate * time_to_expiry) * norm_cdf d2)
    else
      Returns (strike * exp (- risk_free_rate * time_to_expiry) * norm_cdf (- d2)
               - spot * exp (- dividend_yield * time_to_expiry) * norm_cdf (- d1)).

(** [calculate_option_price] over a given [norm.cdf]: the same statements,
    the distribution function being a parameter.  At [norm_cdf] it is
    [calculate_option_price] itself ([price_with_norm_cdf] below). *)
Definition calculate_option_price_with (cdf : R -> R) (option_type : string)
    (spot strike time_to_expiry volatility risk_free_rate dividend_yield : R)
    : outcome R :=
  if Rle_dec time_to_expiry 0 then
    if is_call option_type then Returns (py_max 0 (spot - strike))
    else Returns (py_max 0 (strike - spot))
  else
    d1 <- d1_expr spot strike time_to_expiry volatility risk_free_rate
                  dividend_yield ;;
    let d2 := d1 - volatility * sqrt time_to_expiry in
    if is_call option_type then
      Returns (spot * exp (- dividend_yield * time_to_expiry) * cdf d1
               - strike * exp (- risk_free_rate * time_to_expiry) * cdf d2)
    else
      Returns (strike * exp (- risk_free_rate * time_to_expiry) * cdf (- d2)
               - spot * exp (- dividend_yield * time_to_expiry) * cdf (- d1)).



(** The dictionary of the five Greeks. *)
Record greeks : Type := mk_greeks {
  delta : R;
  gamma : R;
  theta : R;
  vega : R;
  rho : R
}.

Definition calculate_option_greeks (option_type : string)
    (spot strike time_to_expiry volatility risk_free_rate dividend_yield : R)
    : outcome greeks :=
  if Rle_dec time_to_expiry 0 then
    Returns (mk_greeks 0 0 0 0 0)
  else
    d1 <- d1_expr spot strike time_to_expiry volatility risk_free_rate
                  dividend_yield ;;
    let d2 := d1 - volatility * sqrt time_to_expiry in
    let n_d1 := norm_pdf d1 in
    let delta :=
      if is_call option_type then
        exp (- dividend_yield * time_to_expiry) * norm_cdf d1
      else
        exp (- dividend_yield * time_to_expiry) * (norm_cdf d1 - 1) in
    let gamma :=
      exp (- dividend_yield * time_to_expiry) * n_d1
      / (spot * volatility * sqrt time_to_expiry) in
    let vega :=
      0.01 * spot * exp (- dividend_yield * time_to_expiry) * n_d1
      * sqrt time_to_expiry in
    let theta :=
      if is_call option_type then
        - exp (- dividend_yield * time_to_expiry) * spot * n_d1 * volatility
          / (2 * sqrt time_to_expiry)
        - risk_free_rate * strike * exp (- risk_free_rate * time_to_expiry)
          * norm_cdf d2
        + dividend_yield * spot * exp (- dividend_yield * time_to_expiry)
          * norm_cdf d1
      else
        - exp (- dividend_yield * time_to_expiry) * spot * n_d1 * volatility
          / (2 * sqrt time_to_expiry)
        + risk_free_rate * strike * exp (- risk_free_rate * time_to_expiry)
          * norm_cdf (- d2)
        - dividend_yield * spot * exp (- dividend_yield * time_to_expiry)
          * norm_cdf (- d1) in
    let theta := theta / 365 in
    let rho :=
      if is_call option_type then
        0.01 * strike * time_to_expiry
        * exp (- risk_free_rate * time_to_expiry) * norm_cdf d2
      else
        - 0.01 * strike * time_to_expiry
        * exp (- risk_free_rate * time_to_expiry) * norm_cdf (- d2) in
    Returns (mk_greeks delta gamma theta vega rho).

(** The three strings [is_itm_atm_otm] returns. *)
Inductive moneyness : Type := ITM | ATM | OTM.

Definition is_itm_atm_otm (option_type : string) (spot strike threshold : R)
    : outcome moneyness :=
  pct_diff <- py_div (Rabs (spot - strike)) strike ;;
  if Rle_dec pct_diff threshold then Returns ATM
  else if is_call option_type then
    Returns (if Rlt_dec strike spot then ITM else OTM)
  else
    Returns (if Rlt_dec spot strike then ITM else OTM).

(** ** The closed form, as the specification writes it *)

Section ClosedForm.

Variables spot strike T sigma r q : R.

Definition spec_d1 : R :=
  (ln (spot / strike) + (r - q + 0.5 * sigma²) * T) / (sigma * sqrt T).

Definition spec_d2 : R := spec_d1 - sigma * sqrt T.

Definition spec_call_price : R :=
  spot * exp (- (q * T)) * norm_cdf spec_d1
  - strike * exp (- (r * T)) * norm_cdf spec_d2.

Definition spec_put_price : R :=
  strike * exp (- (r * T)) * norm_cdf (- spec_d2)
  - spot * exp (- (q * T)) * norm_cdf (- spec_d1).

End ClosedForm.

(** * Real analysis behind the normal law *)

Lemma Rabs_le_both (a b : R) : Rabs a <= b -> - b <= a <= b.
Proof. unfold Rabs. destruct (Rcase_abs a); lra. Qed.

Lemma dlim_eq (f : R -> R) (x l l' : R) :
  derivable_pt_lim f x l -> l = l' -> derivable_pt_lim f x l'.
Proof. intros H <-. exact H. Qed.

Lemma dlim_linear (c x : R) : derivable_pt_lim (fun u => c * u) x c.
Proof.
  apply dlim_eq with (c * 1); [| ring].
  apply (derivable_pt_lim_scal id), derivable_pt_lim_id.
Qed.

Section Calculus.

(** Two functions with the same derivative everywhere differ by a constant,
    and a function with a non-negative derivative does not decrease. *)

Lemma deriv_nonneg_mono (f f' : R -> R) :
  (forall x, derivable_pt_lim f x (f' x)) -> (forall x, 0 <= f' x) ->
  forall a b, a <= b -> f a <= f b.
Proof.
  intros Hd Hpos a b [Hab | ->]; [| lra].
  destruct (MVT_cor2 f f' a b Hab (fun c _ => Hd c)) as [c [Hc _]].
  specialize (Hpos c). nra.
Qed.

Lemma deriv_zero_const (f : R -> R) :
  (forall x, derivable_pt_lim f x 0) -> forall a b, f a = f b.
Proof.
  intros Hd.
  assert (Hlt : forall a b, a < b -> f a = f b).
  { intros a b Hab.
    destruct (MVT_cor2 f (fun _ => 0) a b Hab (fun c _ => Hd c)) as [c [Hc _]].
    lra. }
  intros a b. destruct (Rtotal_order a b) as [H | [-> | H]];
    [auto | reflexivity | symmetry; auto].
Qed.

Variable f : R -> R.
Hypothesis f_cont : continuity f.

Lemma chasles (a b c : R) (p1 : Riemann_integrable f a b)
  (p2 : Riemann_integrable f b c) (p3 : Riemann_integrable f a c) :
  RiemannInt p3 = RiemannInt p1 + RiemannInt p2.
Proof. symmetry. apply RiemannInt_P26. Qed.

Lemma area_0 : area f f_cont 0 = 0.
Proof. apply RiemannInt_P9. Qed.

Lemma area_deriv (x : R) : derivable_pt_lim (area f f_cont) x (f x).
Proof.
  set (a := Rmin 0 x - 1). set (b := Rmax 0 x + 1).
  assert (Ha0 : a < 0) by (unfold a; pose proof (Rmin_l 0 x); lra).
  assert (Hax : a < x) by (unfold a; pose proof (Rmin_r 0 x); lra).
  assert (Hxb : x < b) by (unfold b; pose proof (Rmax_r 0 x); lra).
  assert (h : a <= b) by lra.
  pose (C0 := fun (y : R) (_ : a <= y <= b) => f_cont y).
  pose proof (@RiemannInt_P28 f a b x h C0 (conj (Rlt_le _ _ Hax) (Rlt_le _ _ Hxb)))
    as HP.
  set (P := primitive h (FTC_P1 h C0)) in HP.
  set (c := RiemannInt (continuous_integrable f f_cont a 0)).
  apply derivable_pt_lim_locally_ext with (f := fun y => P y - c) (a := a) (b := b).
  - lra.
  - intros z [Hz1 Hz2]. unfold P, primitive, area.
    destruct (Rle_dec a z) as [Haz | Haz]; [| lra].
    destruct (Rle_dec z b) as [Hzb | Hzb]; [| lra].
    rewrite (chasles a 0 z (continuous_integrable f f_cont a 0)
               (continuous_integrable f f_cont 0 z)).
    fold c. lra.
  - replace (f x) with (f x - 0) by lra.
    apply (derivable_pt_lim_minus P (fun _ => c)); [exact HP |].
    apply derivable_pt_lim_const.
Qed.

(** The fundamental theorem: the integral of [f] is the increment of any
    antiderivative. *)
Lemma integral_antiderivative (K : R -> R) :
  (forall t, derivable_pt_lim K t (f t)) ->
  forall a b (pr : Riemann_integrable f a b), RiemannInt pr = K b - K a.
Proof.
  intros HK a b pr.
  assert (Hc : forall u v, area f f_cont u - K u = area f f_cont v - K v).
  { apply (deriv_zero_const (fun u => area f f_cont u - K u)). intros u.
    replace 0 with (f u - f u) by lra.
    apply (derivable_pt_lim_minus (area f f_cont) K);
      [apply area_deriv | apply HK]. }
  specialize (Hc a b).
  assert (Hch : area f f_cont b = area f f_cont a + RiemannInt pr).
  { unfold area. apply chasles. }
  lra.
Qed.

End Calculus.

Section Parametric.

(** Differentiation under the integral sign on [0, 1], for an integrand
    [g x t] whose derivative in [x] is Lipschitz in [x], uniformly in [t]. *)

Variables g g1 : R -> R -> R.
Hypothesis g_cont : forall x, continuity (g x).
Hypothesis g1_cont : forall x, continuity (g1 x).
Hypothesis g_deriv : forall x t, derivable_pt_lim (fun u => g u t) x (g1 x t).
Variable M : R.
Hypothesis g1_lip : forall x y t, Rabs (g1 y t - g1 x t) <= M * Rabs (y - x).

Definition pint (x : R) : R :=
  RiemannInt (continuous_integrable (g x) (g_cont x) 0 1).
Definition pint1 (x : R) : R :=
  RiemannInt (continuous_integrable (g1 x) (g1_cont x) 0 1).

Lemma lip_nonneg : 0 <= M.
Proof.
  pose proof (g1_lip 0 1 0) as H. pose proof (Rabs_pos (g1 1 0 - g1 0 0)).
  replace (1 - 0) with 1 in H by lra. rewrite Rabs_R1 in H. lra.
Qed.

Lemma remainder_bound (x h t : R) :
  Rabs (g (x + h) t - g x t - h * g1 x t) <= M * h ^ 2.
Proof.
  set (k := fun u => g u t - g1 x t * u).
  assert (Hk : forall u, derivable_pt_lim k u (g1 u t - g1 x t)).
  { intros u. unfold k.
    apply (derivable_pt_lim_minus (fun u => g u t) (fun u => g1 x t * u)).
    - apply g_deriv.
    - apply dlim_linear. }
  replace (g (x + h) t - g x t - h * g1 x t) with (k (x + h) - k x)
    by (unfold k; lra).
  destruct (Rtotal_order h 0) as [Hh | [-> | Hh]].
  - assert (Hlt : x + h < x) by lra.
    destruct (MVT_cor2 k (fun u => g1 u t - g1 x t) (x + h) x Hlt
                (fun c _ => Hk c)) as [c [Hc Hcx]].
    pose proof (g1_lip x c t) as HL.
    replace (k (x + h) - k x) with (- (k x - k (x + h))) by lra.
    rewrite Rabs_Ropp, Hc, Rabs_mult.
    pose proof lip_nonneg.
    rewrite (Rabs_left1 (c - x)) in HL by lra.
    rewrite (Rabs_right (x - (x + h))) by lra.
    pose proof (Rabs_pos (g1 c t - g1 x t)).
    apply Rle_trans with (M * - (c - x) * (x - (x + h))).
    + apply Rmult_le_compat_r; lra.
    + assert (0 <= M * (c - (x + h))) by (apply Rmult_le_pos; lra). nra.
  - replace (x + 0) with x by lra. rewrite Rminus_diag, Rabs_R0. lra.
  - assert (Hlt : x < x + h) by lra.
    destruct (MVT_cor2 k (fun u => g1 u t - g1 x t) x (x + h) Hlt
                (fun c _ => Hk c)) as [c [Hc Hcx]].
    pose proof (g1_lip x c t) as HL.
    rewrite Hc, Rabs_mult.
    pose proof lip_nonneg.
    rewrite (Rabs_right (c - x)) in HL by lra.
    rewrite (Rabs_right (x + h - x)) by lra.
    pose proof (Rabs_pos (g1 c t - g1 x t)).
    apply Rle_trans with (M * (c - x) * (x + h - x)).
    + apply Rmult_le_compat_r; lra.
    + assert (0 <= M * (x + h - c)) by (apply Rmult_le_pos; lra). nra.
Qed.

Lemma pint_increment (x h : R) :
  Rabs (pint (x + h) - pint x - h * pint1 x) <= M * h ^ 2.
Proof.
  set (pa := continuous_integrable (g (x + h)) (g_cont (x + h)) 0 1).
  set (pb := continuous_integrable (g x) (g_cont x) 0 1).
  set (pc := continuous_integrable (g1 x) (g1_cont x) 0 1).
  pose (pab := RiemannInt_P10 (-1) pa pb).
  pose (pabc := RiemannInt_P10 (- h) pab pc).
  assert (He : RiemannInt pabc = pint (x + h) - pint x - h * pint1 x).
  { unfold pabc. rewrite (RiemannInt_P13 pab pc).
    unfold pab. rewrite (RiemannInt_P13 pa pb).
    unfold pint, pint1. fold pa pb pc. lra. }
  rewrite <- He.
  pose (pM := RiemannInt_P14 0 1 (M * h ^ 2)).
  pose (pm := RiemannInt_P14 0 1 (- (M * h ^ 2))).
  assert (Hup : RiemannInt pabc <= RiemannInt pM).
  { apply RiemannInt_P19; [lra |]. intros t _. unfold fct_cte.
    pose proof (remainder_bound x h t) as Hb.
    apply Rabs_le_both in Hb. lra. }
  assert (Hlo : RiemannInt pm <= RiemannInt pabc).
  { apply RiemannInt_P19; [lra |]. intros t _. unfold fct_cte.
    pose proof (remainder_bound x h t) as Hb.
    apply Rabs_le_both in Hb. lra. }
  unfold pM in Hup. unfold pm in Hlo. rewrite RiemannInt_P15 in Hup, Hlo.
  apply Rabs_le. lra.
Qed.

Lemma pint_deriv (x : R) : derivable_pt_lim pint x (pint1 x).
Proof.
  intros eps Heps. pose proof lip_nonneg as HM.
  assert (Hd : 0 < eps / (M + 1)) by (apply Rdiv_lt_0_compat; lra).
  exists (mkposreal _ Hd). simpl. intros h Hh0 Hh.
  replace ((pint (x + h) - pint x) / h - pint1 x)
    with ((pint (x + h) - pint x - h * pint1 x) / h) by (field; exact Hh0).
  unfold Rdiv. rewrite Rabs_mult, Rabs_inv.
  pose proof (pint_increment x h) as Hb.
  assert (Hah : 0 < Rabs h) by (apply Rabs_pos_lt; exact Hh0).
  apply Rle_lt_trans with (M * Rabs h).
  - apply Rmult_le_reg_r with (Rabs h); [exact Hah |].
    rewrite Rmult_assoc, Rinv_l by lra.
    replace (M * Rabs h * Rabs h) with (M * h ^ 2).
    + lra.
    + rewrite Rmult_assoc. f_equal. rewrite <- Rabs_mult.
      rewrite Rabs_right; [ring | nra].
  - apply Rlt_le_trans with ((M + 1) * Rabs h); [lra |].
    apply Rmult_lt_compat_l with (r := M + 1) in Hh; [| lra].
    replace ((M + 1) * (eps / (M + 1))) with eps in Hh by (field; lra). lra.
Qed.

End Parametric.

(** Derivative rules on functions written pointwise. *)
Section Rules.
Variables (f g : R -> R) (x lf lg : R).
Hypothesis Hf : derivable_pt_lim f x lf.
Hypothesis Hg : derivable_pt_lim g x lg.

Lemma dl_plus : derivable_pt_lim (fun u => f u + g u) x (lf + lg).
Proof. exact (derivable_pt_lim_plus f g x lf lg Hf Hg). Qed.

Lemma dl_minus : derivable_pt_lim (fun u => f u - g u) x (lf - lg).
Proof. exact (derivable_pt_lim_minus f g x lf lg Hf Hg). Qed.

Lemma dl_mult : derivable_pt_lim (fun u => f u * g u) x (lf * g x + f x * lg).
Proof. exact (derivable_pt_lim_mult f g x lf lg Hf Hg). Qed.

Lemma dl_opp : derivable_pt_lim (fun u => - f u) x (- lf).
Proof. exact (derivable_pt_lim_opp f x lf Hf). Qed.

Lemma dl_exp : derivable_pt_lim (fun u => exp (f u)) x (exp (f x) * lf).
Proof. exact (derivable_pt_lim_comp f exp x lf _ Hf (derivable_pt_lim_exp (f x))). Qed.

Lemma dl_sqr : derivable_pt_lim (fun u => f u ^ 2) x (2 * f x * lf).
Proof.
  apply dlim_eq with (INR 2 * f x ^ pred 2 * lf); [| simpl; ring].
  exact (derivable_pt_lim_comp f (fun y => y ^ 2) x lf _ Hf
           (derivable_pt_lim_pow (f x) 2)).
Qed.

Lemma dl_comp (k : R -> R) (lk : R) :
  derivable_pt_lim k (f x) lk -> derivable_pt_lim (fun u => k (f u)) x (lk * lf).
Proof. intros Hk. exact (derivable_pt_lim_comp f k x lf lk Hf Hk). Qed.

End Rules.

Lemma dl_const (c x : R) : derivable_pt_lim (fun _ => c) x 0.
Proof. exact (derivable_pt_lim_const c x). Qed.

Lemma dl_id (x : R) : derivable_pt_lim (fun u => u) x 1.
Proof. exact (derivable_pt_lim_id x). Qed.

Ltac dl_step :=
  first [ apply dl_const | apply dl_id | apply dl_sqr | apply dl_exp
        | apply dl_plus | apply dl_minus | apply dl_opp | apply dl_mult ].

Ltac dl_auto := eapply dlim_eq; [repeat dl_step | cbv beta].

(** A bounded derivative gives a Lipschitz function. *)
Lemma deriv_bounded_lip (f f' : R -> R) (M : R) :
  (forall x, derivable_pt_lim f x (f' x)) -> (forall x, Rabs (f' x) <= M) ->
  forall x y, Rabs (f y - f x) <= M * Rabs (y - x).
Proof.
  intros Hd Hb.
  assert (Hlt : forall a b, a < b -> Rabs (f b - f a) <= M * (b - a)).
  { intros a b Hab.
    destruct (MVT_cor2 f f' a b Hab (fun c _ => Hd c)) as [c [Hc _]].
    rewrite Hc, Rabs_mult, (Rabs_right (b - a)) by lra.
    apply Rmult_le_compat_r; [lra | apply Hb]. }
  intros x y. destruct (Rtotal_order x y) as [H | [-> | H]].
  - rewrite (Rabs_right (y - x)) by lra. apply Hlt, H.
  - rewrite !Rminus_diag, Rabs_R0. lra.
  - rewrite (Rabs_left (y - x)) by lra.
    replace (f y - f x) with (- (f x - f y)) by lra. rewrite Rabs_Ropp.
    replace (- (y - x)) with (x - y) by lra. apply Hlt, H.
Qed.

(** ** The Gaussian integral *)

Lemma sqrt_2PI_pos : 0 < sqrt (2 * PI).
Proof. apply sqrt_lt_R0. pose proof PI_RGT_0. lra. Qed.

Lemma sqrt_2PI_sqr : sqrt (2 * PI) * sqrt (2 * PI) = 2 * PI.
Proof. apply sqrt_sqrt. pose proof PI_RGT_0. lra. Qed.

Lemma norm_pdf_pos (x : R) : 0 < norm_pdf x.
Proof.
  unfold norm_pdf. apply Rdiv_lt_0_compat; [apply exp_pos | apply sqrt_2PI_pos].
Qed.


(** The integrand of Owen's function and its first two derivatives in [x]. *)
Definition owen_g (x t : R) : R := exp (- (x ^ 2 * (1 + t ^ 2)) / 2) / (1 + t ^ 2).
Definition owen_g1 (x t : R) : R := - x * exp (- (x ^ 2 * (1 + t ^ 2)) / 2).
Definition owen_g2 (x t : R) : R :=
  (x ^ 2 * (1 + t ^ 2) - 1) * exp (- (x ^ 2 * (1 + t ^ 2)) / 2).

Lemma one_plus_sqr_pos (t : R) : 0 < 1 + t ^ 2.
Proof. nra. Qed.

Lemma owen_g_deriv (x t : R) :
  derivable_pt_lim (fun u => owen_g u t) x (owen_g1 x t).
Proof.
  unfold owen_g, owen_g1, Rdiv. dl_auto.
  pose proof (one_plus_sqr_pos t). field. lra.
Qed.

Lemma owen_g1_deriv (x t : R) :
  derivable_pt_lim (fun u => owen_g1 u t) x (owen_g2 x t).
Proof.
  unfold owen_g1, owen_g2, Rdiv. dl_auto. field.
Qed.

Lemma owen_g_cont (x : R) : continuity (owen_g x).
Proof.
  unfold owen_g. reg. intros t. pose proof (one_plus_sqr_pos t).
  simpl in *. nra.
Qed.

Lemma owen_g1_cont (x : R) : continuity (owen_g1 x).
Proof. unfold owen_g1. reg. Qed.

Lemma owen_g2_bound (x t : R) : Rabs (owen_g2 x t) <= 2.
Proof.
  unfold owen_g2. set (s := x ^ 2 * (1 + t ^ 2)).
  assert (Hs : 0 <= s) by (unfold s; pose proof (one_plus_sqr_pos t); nra).
  replace (- s / 2) with (- (s / 2)) by lra. rewrite exp_Ropp.
  pose proof (exp_ineq1_le (s / 2)) as He.
  pose proof (exp_pos (s / 2)) as Hp.
  rewrite Rabs_mult, (Rabs_right (/ exp (s / 2)))
    by (apply Rle_ge, Rlt_le, Rinv_0_lt_compat, Hp).
  apply Rmult_le_reg_r with (exp (s / 2)); [exact Hp |].
  rewrite Rmult_assoc, Rinv_l by lra.
  assert (Rabs (s - 1) <= s + 1) by (apply Rabs_le; lra).
  lra.
Qed.

Lemma owen_g1_lip (x y t : R) :
  Rabs (owen_g1 y t - owen_g1 x t) <= 2 * Rabs (y - x).
Proof.
  apply (deriv_bounded_lip (fun u => owen_g1 u t) (fun u => owen_g2 u t)).
  - intros u. apply owen_g1_deriv.
  - intros u. apply owen_g2_bound.
Qed.

(** Owen's integral [G x = int_0^1 exp (- x^2 (1 + t^2) / 2) / (1 + t^2) dt]
    and the integral of the derivative of its integrand. *)
Definition owen_G : R -> R := pint owen_g owen_g_cont.
Definition owen_G1 : R -> R := pint1 owen_g1 owen_g1_cont.

Lemma owen_G_deriv (x : R) : derivable_pt_lim owen_G x (owen_G1 x).
Proof.
  apply (pint_deriv owen_g owen_g1 owen_g_cont owen_g1_cont owen_g_deriv 2
           owen_g1_lip).
Qed.

Lemma norm_cdf_deriv (x : R) : derivable_pt_lim norm_cdf x (norm_pdf x).
Proof.
  unfold norm_cdf. apply dlim_eq with (0 + norm_pdf x); [| ring].
  apply dl_plus; [apply dl_const | apply area_deriv].
Qed.

Lemma norm_cdf_0 : norm_cdf 0 = 1 / 2.
Proof. unfold norm_cdf. rewrite area_0. lra. Qed.

Lemma owen_G1_eq (x : R) :
  owen_G1 x = - exp (- x ^ 2 / 2) * sqrt (2 * PI) * (norm_cdf x - 1 / 2).
Proof.
  unfold owen_G1, pint1.
  rewrite (integral_antiderivative (owen_g1 x) (owen_g1_cont x)
             (fun t => - exp (- x ^ 2 / 2) * sqrt (2 * PI) * norm_cdf (x * t))).
  - rewrite Rmult_1_r, Rmult_0_r, norm_cdf_0. ring.
  - intros t.
    apply dlim_eq with
      (- exp (- x ^ 2 / 2) * sqrt (2 * PI) * (norm_pdf (x * t) * x)).
    + apply (derivable_pt_lim_scal (fun t => norm_cdf (x * t))).
      apply (dl_comp (fun t => x * t)); [apply dlim_linear | apply norm_cdf_deriv].
    + unfold owen_g1, norm_pdf.
      replace (- (x ^ 2 * (1 + t ^ 2)) / 2)
        with (- x ^ 2 / 2 + - (x * t) ^ 2 / 2) by field.
      rewrite exp_plus. pose proof sqrt_2PI_pos. field. lra.
Qed.

Lemma owen_G_0 : owen_G 0 = PI / 4.
Proof.
  unfold owen_G, pint.
  rewrite (integral_antiderivative (owen_g 0) (owen_g_cont 0) atan).
  - rewrite atan_1, atan_0. lra.
  - intros t. apply dlim_eq with (/ (1 + t ^ 2)).
    + apply derivable_pt_lim_atan.
    + unfold owen_g. replace (- (0 ^ 2 * (1 + t ^ 2)) / 2) with 0 by field.
      rewrite exp_0. pose proof (one_plus_sqr_pos t). field. lra.
Qed.

Lemma owen_G_bounds (x : R) : 0 <= owen_G x <= exp (- x ^ 2 / 2).
Proof.
  unfold owen_G, pint.
  set (pr := continuous_integrable (owen_g x) (owen_g_cont x) 0 1).
  assert (Hg : forall t, 0 <= owen_g x t <= exp (- x ^ 2 / 2)).
  { intros t. unfold owen_g. pose proof (one_plus_sqr_pos t) as Ht.
    pose proof (exp_pos (- (x ^ 2 * (1 + t ^ 2)) / 2)) as He.
    split.
    - apply Rlt_le, Rdiv_lt_0_compat; assumption.
    - apply Rle_trans with (exp (- (x ^ 2 * (1 + t ^ 2)) / 2)).
      + apply Rmult_le_reg_r with (1 + t ^ 2); [exact Ht |].
        unfold Rdiv. rewrite Rmult_assoc, Rinv_l by lra. nra.
      + destruct (Req_dec (x ^ 2 * t ^ 2) 0) as [H0 | H0].
        * right. f_equal. lra.
        * left. apply exp_increasing. nra. }
  split.
  - apply Rle_trans with (RiemannInt (RiemannInt_P14 0 1 0)).
    + rewrite RiemannInt_P15. lra.
    + apply RiemannInt_P19; [lra | intros t _; apply Hg].
  - apply Rle_trans with (RiemannInt (RiemannInt_P14 0 1 (exp (- x ^ 2 / 2)))).
    + apply RiemannInt_P19; [lra | intros t _; apply Hg].
    + rewrite RiemannInt_P15. lra.
Qed.

(** Owen's identity at slope one:
    [norm_cdf x * (1 - norm_cdf x) = G x / PI]. *)
Lemma norm_cdf_owen (x : R) : norm_cdf x * (1 - norm_cdf x) = owen_G x / PI.
Proof.
  pose proof PI_RGT_0 as Hpi. pose proof sqrt_2PI_pos as Hs.
  pose proof sqrt_2PI_sqr as Hss.
  set (H := fun u => (norm_cdf u - 1 / 2) ^ 2 + owen_G u / PI).
  assert (HH : forall u v, H u = H v).
  { apply deriv_zero_const. intros u. unfold H, Rdiv.
    apply dlim_eq with
      (2 * (norm_cdf u - 1 * / 2) * (norm_pdf u - 0) + (owen_G1 u * / PI + owen_G u * 0)).
    - apply (dl_plus (fun u => (norm_cdf u - 1 * / 2) ^ 2)
               (fun u => owen_G u * / PI)).
      + apply (dl_sqr (fun u => norm_cdf u - 1 * / 2)).
        apply (dl_minus norm_cdf); [apply norm_cdf_deriv | apply dl_const].
      + apply (dl_mult owen_G (fun _ => / PI));
          [apply owen_G_deriv | apply dl_const].
    - rewrite owen_G1_eq. unfold norm_pdf.
      replace (/ PI) with (2 * / (sqrt (2 * PI) * sqrt (2 * PI)))
        by (rewrite Hss; field; lra).
      field. lra. }
  specialize (HH x 0). unfold H in HH.
  rewrite norm_cdf_0, owen_G_0 in HH.
  replace (PI / 4 / PI) with (1 / 4) in HH by (field; lra).
  lra.
Qed.

Lemma norm_pdf_even (x : R) : norm_pdf (- x) = norm_pdf x.
Proof. unfold norm_pdf. do 2 f_equal. field. Qed.

Lemma norm_cdf_mono (a b : R) : a <= b -> norm_cdf a <= norm_cdf b.
Proof.
  apply (deriv_nonneg_mono norm_cdf norm_pdf norm_cdf_deriv).
  intros x. apply Rlt_le, norm_pdf_pos.
Qed.

Lemma norm_cdf_neg_deriv (x : R) :
  derivable_pt_lim (fun u => norm_cdf (- u)) x (- norm_pdf x).
Proof.
  apply dlim_eq with (norm_pdf (- x) * - 1); [| rewrite norm_pdf_even; ring].
  apply (dl_comp (fun u => - u)); [| apply norm_cdf_deriv].
  apply (dl_opp (fun u => u)), dl_id.
Qed.

(** Symmetry of the normal law. *)
Lemma norm_cdf_sym (x : R) : norm_cdf (- x) = 1 - norm_cdf x.
Proof.
  assert (H : forall u v, norm_cdf u + norm_cdf (- u) = norm_cdf v + norm_cdf (- v)).
  { apply (deriv_zero_const (fun u => norm_cdf u + norm_cdf (- u))). intros u.
    apply dlim_eq with (norm_pdf u + - norm_pdf u); [| ring].
    apply (dl_plus norm_cdf (fun u => norm_cdf (- u)));
      [apply norm_cdf_deriv | apply norm_cdf_neg_deriv]. }
  specialize (H x 0). rewrite Ropp_0, norm_cdf_0 in H. lra.
Qed.

(** The distribution function takes its values in [0, 1]. *)
Lemma norm_cdf_bounds (x : R) : 0 <= norm_cdf x <= 1.
Proof.
  assert (Hhalf : forall y, 0 <= y -> 1 / 2 <= norm_cdf y <= 1).
  { intros y Hy. pose proof (norm_cdf_mono 0 y Hy) as Hm.
    rewrite norm_cdf_0 in Hm. split; [exact Hm |].
    pose proof (norm_cdf_owen y) as Ho.
    pose proof (owen_G_bounds y) as [HG _]. pose proof PI_RGT_0 as Hpi.
    assert (0 <= owen_G y / PI) by (apply Rmult_le_pos;
      [exact HG | apply Rlt_le, Rinv_0_lt_compat, Hpi]).
    nra. }
  destruct (Rle_dec 0 x) as [Hx | Hx].
  - specialize (Hhalf x Hx). lra.
  - specialize (Hhalf (- x) ltac:(lra)). rewrite norm_cdf_sym in Hhalf. lra.
Qed.

(** The left tail is dominated by the Gaussian. *)
Lemma norm_cdf_tail (x : R) : x <= 0 -> norm_cdf x <= exp (- x ^ 2 / 2).
Proof.
  intros Hx. pose proof (norm_cdf_mono x 0 Hx) as Hm. rewrite norm_cdf_0 in Hm.
  pose proof (norm_cdf_owen x) as Ho.
  pose proof (owen_G_bounds x) as [HG0 HG]. pose proof PI2_1 as Hpi.
  pose proof (norm_cdf_bounds x) as [Hc0 Hc1].
  assert (Hq : owen_G x / PI <= exp (- x ^ 2 / 2) / 2).
  { apply Rmult_le_reg_r with PI; [lra |].
    unfold Rdiv at 1. rewrite Rmult_assoc, Rinv_l, Rmult_1_r by lra.
    pose proof (exp_pos (- x ^ 2 / 2)). nra. }
  nra.
Qed.

Lemma exp_neg_sqr_small (eps w : R) :
  0 < eps -> w <= - (1 + / eps) -> exp (- w ^ 2 / 2) < eps.
Proof.
  intros He Hw.
  assert (Hi : 0 < / eps) by (apply Rinv_0_lt_compat, He).
  replace (- w ^ 2 / 2) with (- (w ^ 2 / 2)) by lra. rewrite exp_Ropp.
  rewrite <- (Rinv_inv eps). apply Rinv_lt_contravar.
  - apply Rmult_lt_0_compat; [exact Hi | apply exp_pos].
  - pose proof (exp_ineq1_le (w ^ 2 / 2)). nra.
Qed.

Lemma norm_cdf_limit_left (eps : R) :
  0 < eps -> forall x, x <= - (1 + / eps) -> norm_cdf x < eps.
Proof.
  intros He x Hx.
  assert (0 < / eps) by (apply Rinv_0_lt_compat, He).
  apply Rle_lt_trans with (exp (- x ^ 2 / 2)).
  - apply norm_cdf_tail. lra.
  - apply exp_neg_sqr_small; assumption.
Qed.

Lemma norm_cdf_limit_right (eps : R) :
  0 < eps -> forall x, 1 + / eps <= x -> 1 - eps < norm_cdf x.
Proof.
  intros He x Hx.
  pose proof (norm_cdf_limit_left eps He (- x) ltac:(lra)) as H.
  rewrite norm_cdf_sym in H. lra.
Qed.

(** [norm_cdf] is the integral of the density from minus infinity: the only
    antiderivative of [norm_pdf] that vanishes there. *)
Lemma norm_cdf_unique (F : R -> R) :
  (forall x, derivable_pt_lim F x (norm_pdf x)) ->
  (forall eps, 0 < eps -> exists A, forall x, x <= A -> Rabs (F x) < eps) ->
  forall x, F x = norm_cdf x.
Proof.
  intros HF Hlim x.
  assert (Hc : forall u v, F u - norm_cdf u = F v - norm_cdf v).
  { apply (deriv_zero_const (fun u => F u - norm_cdf u)). intros u.
    apply dlim_eq with (norm_pdf u - norm_pdf u); [| ring].
    apply (dl_minus F norm_cdf); [apply HF | apply norm_cdf_deriv]. }
  destruct (Req_dec (F x - norm_cdf x) 0) as [H0 | H0]; [lra | exfalso].
  set (eps := Rabs (F x - norm_cdf x) / 2).
  assert (He : 0 < eps) by (unfold eps; pose proof (Rabs_pos_lt _ H0); lra).
  destruct (Hlim eps He) as [A HA].
  set (y := Rmin A (- (1 + / eps))).
  pose proof (HA y (Rmin_l _ _)) as H1.
  pose proof (norm_cdf_limit_left eps He y (Rmin_r _ _)) as H2.
  pose proof (norm_cdf_bounds y) as [H3 _].
  specialize (Hc x y).
  assert (Ht : Rabs (F x - norm_cdf x) <= Rabs (F y) + norm_cdf y).
  { rewrite Hc. unfold Rminus.
    eapply Rle_trans; [apply Rabs_triang |].
    rewrite Rabs_Ropp, (Rabs_pos_eq (norm_cdf y)) by exact H3. lra. }
  unfold eps in H1, H2. lra.
Qed.

(** The distribution function never reaches its bounds. *)
Lemma norm_cdf_strict_mono (a b : R) : a < b -> norm_cdf a < norm_cdf b.
Proof.
  intros Hab.
  destruct (MVT_cor2 norm_cdf norm_pdf a b Hab (fun c _ => norm_cdf_deriv c))
    as [c [Hc _]].
  pose proof (norm_pdf_pos c). nra.
Qed.

Lemma norm_cdf_open (x : R) : 0 < norm_cdf x < 1.
Proof.
  pose proof (norm_cdf_strict_mono (x - 1) x ltac:(lra)).
  pose proof (norm_cdf_strict_mono x (x + 1) ltac:(lra)).
  pose proof (norm_cdf_bounds (x - 1)). pose proof (norm_cdf_bounds (x + 1)).
  lra.
Qed.

(** ** The Black-Scholes kernel *)

Section Kernel.

Variable v : R.
Hypothesis v_pos : 0 <= v.

(** With [x = d1] and [v = sigma * sqrt T], the call is worth
    [strike * exp (- r T) * call_kernel x] and the put
    [strike * exp (- r T) * put_kernel x]. *)
Definition call_kernel (x : R) : R :=
  exp (v * x - v ^ 2 / 2) * norm_cdf x - norm_cdf (x - v).
Definition put_kernel (x : R) : R :=
  norm_cdf (- (x - v)) - exp (v * x - v ^ 2 / 2) * norm_cdf (- x).

Lemma shift_deriv (x : R) :
  derivable_pt_lim (fun u => norm_cdf (u - v)) x (norm_pdf (x - v)).
Proof.
  apply dlim_eq with (norm_pdf (x - v) * (1 - 0)); [| ring].
  apply (dl_comp (fun u => u - v)); [| apply norm_cdf_deriv].
  apply (dl_minus (fun u => u)); [apply dl_id | apply dl_const].
Qed.

Lemma tilt_deriv (x : R) :
  derivable_pt_lim (fun u => exp (v * u - v ^ 2 / 2)) x
    (v * exp (v * x - v ^ 2 / 2)).
Proof.
  apply dlim_eq with (exp (v * x - v ^ 2 / 2) * (v - 0)); [| ring].
  apply (dl_exp (fun u => v * u - v ^ 2 / 2)).
  apply (dl_minus (fun u => v * u)); [apply dlim_linear | apply dl_const].
Qed.

Lemma tilt_pdf (x : R) :
  exp (v * x - v ^ 2 / 2) * norm_pdf x = norm_pdf (x - v).
Proof.
  unfold norm_pdf, Rdiv. rewrite <- Rmult_assoc, <- exp_plus.
  do 2 f_equal. field.
Qed.

Lemma call_kernel_deriv (x : R) :
  derivable_pt_lim call_kernel x (v * exp (v * x - v ^ 2 / 2) * norm_cdf x).
Proof.
  unfold call_kernel.
  apply dlim_eq with
    (v * exp (v * x - v ^ 2 / 2) * norm_cdf x
     + exp (v * x - v ^ 2 / 2) * norm_pdf x - norm_pdf (x - v)).
  - apply (dl_minus (fun u => exp (v * u - v ^ 2 / 2) * norm_cdf u)
             (fun u => norm_cdf (u - v))); [| apply shift_deriv].
    apply (dl_mult (fun u => exp (v * u - v ^ 2 / 2)) norm_cdf);
      [apply tilt_deriv | apply norm_cdf_deriv].
  - rewrite tilt_pdf. ring.
Qed.

Lemma call_kernel_mono (a b : R) : a <= b -> call_kernel a <= call_kernel b.
Proof.
  apply (deriv_nonneg_mono call_kernel
           (fun x => v * exp (v * x - v ^ 2 / 2) * norm_cdf x)
           call_kernel_deriv).
  intros x. pose proof (exp_pos (v * x - v ^ 2 / 2)).
  pose proof (norm_cdf_bounds x) as [H0 _].
  apply Rmult_le_pos; [apply Rmult_le_pos; lra | exact H0].
Qed.

Lemma call_kernel_nonneg (x : R) : 0 <= call_kernel x.
Proof.
  destruct (Rle_lt_dec 0 (call_kernel x)) as [H | H]; [exact H | exfalso].
  set (eps := - call_kernel x). assert (He : 0 < eps) by (unfold eps; lra).
  assert (Hi : 0 < / eps) by (apply Rinv_0_lt_compat, He).
  set (y := Rmin x v - (1 + / eps)).
  assert (Hyx : y <= x) by (unfold y; pose proof (Rmin_l x v); lra).
  assert (Hyv : y - v <= - (1 + / eps)) by (unfold y; pose proof (Rmin_r x v); lra).
  pose proof (call_kernel_mono y x Hyx) as Hm.
  pose proof (norm_cdf_limit_left eps He (y - v) Hyv) as Hl.
  pose proof (norm_cdf_bounds y) as [H0 _].
  pose proof (exp_pos (v * y - v ^ 2 / 2)).
  assert (0 <= exp (v * y - v ^ 2 / 2) * norm_cdf y)
    by (apply Rmult_le_pos; lra).
  unfold call_kernel in Hm at 1. unfold eps in Hl. lra.
Qed.



Lemma put_kernel_nonneg (x : R) : 0 <= put_kernel x.
Proof.
  pose proof (call_kernel_nonneg (- (x - v))) as H.
  unfold call_kernel in H. unfold put_kernel.
  replace (- (x - v) - v) with (- x) in H by ring.
  pose proof (exp_pos (v * x - v ^ 2 / 2)) as He.
  apply Rmult_le_compat_l with (r := exp (v * x - v ^ 2 / 2)) in H; [| lra].
  rewrite Rmult_0_r, Rmult_minus_distr_l, <- Rmult_assoc, <- exp_plus in H.
  replace (v * x - v ^ 2 / 2 + (v * - (x - v) - v ^ 2 / 2)) with 0 in H by field.
  rewrite exp_0 in H. lra.
Qed.

End Kernel.

(** ** Mills' bounds on the left tail

    How fast the distribution function grows along its left tail: what is
    needed to compare two prices where [norm.cdf] underflows. *)








(** ** Numerical enclosures *)








(** * The pricing functions on valid inputs *)

Open Scope string_scope.

Lemma is_call_call : is_call "call" = true.
Proof. reflexivity. Qed.

Lemma is_call_put : is_call "put" = false.
Proof. reflexivity. Qed.

Lemma is_call_other (o : string) : o <> "call" -> is_call o = false.
Proof. intros H. unfold is_call. apply String.eqb_neq, H. Qed.

Lemma py_max_Rmax (a b : R) : py_max a b = Rmax a b.
Proof.
  unfold py_max, Rmax. destruct (Rlt_dec a b), (Rle_dec a b); lra.
Qed.

(** When [d1] has a value, no later divisor of the Greeks is zero. *)
Lemma d1_expr_divisors (spot strike T sigma r q d : R) :
  d1_expr spot strike T sigma r q = Returns d ->
  strike <> 0 /\ spot * sigma * sqrt T <> 0 /\ 2 * sqrt T <> 0.
Proof.
  unfold d1_expr, py_div, np_log, np_div, bind.
  destruct (Req_EM_T strike 0) as [| HK]; [discriminate |].
  destruct (Rlt_dec 0 (spot / strike)) as [Hr |]; [| discriminate].
  destruct (Req_EM_T (sigma * sqrt T) 0) as [| Hv]; [discriminate |].
  intros _. split; [exact HK |].
  assert (HS : spot <> 0).
  { intros ->. unfold Rdiv in Hr. rewrite Rmult_0_l in Hr. lra. }
  split.
  - rewrite Rmult_assoc. apply Rmult_integral_contrapositive_currified; assumption.
  - intros H2. apply Hv. replace (sqrt T) with 0 by lra. ring.
Qed.

Section ValidInputs.

Variables spot strike T sigma r q : R.
Hypothesis strike_pos : 0 < strike.
Hypothesis spot_pos : 0 < spot.
Hypothesis T_pos : 0 < T.
Hypothesis sigma_pos : 0 < sigma.

(** The value bound to [d1] and the total volatility [sigma * sqrt T]. *)
Definition d1_value : R :=
  (ln (spot / strike) + (r - q + 0.5 * sigma ^ 2) * T) / (sigma * sqrt T).
Definition total_vol : R := sigma * sqrt T.

Lemma total_vol_pos : 0 < total_vol.
Proof. apply Rmult_lt_0_compat; [exact sigma_pos | apply sqrt_lt_R0, T_pos]. Qed.

Lemma d1_expr_returns :
  d1_expr spot strike T sigma r q = Returns d1_value.
Proof.
  unfold d1_expr, py_div, np_log, np_div, bind, d1_value.
  pose proof total_vol_pos as Hv. unfold total_vol in Hv.
  assert (Hr : 0 < spot / strike) by (apply Rdiv_lt_0_compat; assumption).
  destruct (Req_EM_T strike 0); [lra |].
  destruct (Rlt_dec 0 (spot / strike)); [| contradiction].
  destruct (Req_EM_T (sigma * sqrt T) 0); [lra | reflexivity].
Qed.

Lemma price_returns (o : string) :
  calculate_option_price o spot strike T sigma r q =
  Returns (if is_call o then
             spot * exp (- q * T) * norm_cdf d1_value
             - strike * exp (- r * T) * norm_cdf (d1_value - total_vol)
           else
             strike * exp (- r * T) * norm_cdf (- (d1_value - total_vol))
             - spot * exp (- q * T) * norm_cdf (- d1_value)).
Proof.
  unfold calculate_option_price.
  destruct (Rle_dec T 0); [lra |].
  rewrite d1_expr_returns. unfold bind, total_vol.
  destruct (is_call o); reflexivity.
Qed.

Lemma greeks_return (o : string) :
  exists g, calculate_option_greeks o spot strike T sigma r q = Returns g
    /\ delta g = (if is_call o then exp (- q * T) * norm_cdf d1_value
                  else exp (- q * T) * (norm_cdf d1_value - 1))
    /\ gamma g = exp (- q * T) * norm_pdf d1_value / (spot * sigma * sqrt T).
Proof.
  unfold calculate_option_greeks.
  destruct (Rle_dec T 0); [lra |].
  rewrite d1_expr_returns. unfold bind.
  eexists. split; [reflexivity |]. simpl. split; reflexivity.
Qed.

(** The discounted spot is the discounted strike tilted by [d1]. *)
Lemma forward_identity :
  spot * exp (- q * T) =
  strike * exp (- r * T) * exp (total_vol * d1_value - total_vol ^ 2 / 2).
Proof.
  pose proof total_vol_pos as Hv.
  assert (Hs : sqrt T * sqrt T = T) by (apply sqrt_sqrt; lra).
  assert (He : total_vol * d1_value - total_vol ^ 2 / 2
               = ln (spot / strike) + (r * T - q * T)).
  { unfold d1_value. fold total_vol.
    replace (total_vol ^ 2) with (sigma ^ 2 * T)
      by (unfold total_vol; rewrite <- Hs at 1; ring).
    replace 0.5 with (/ 2) by lra. field. lra. }
  rewrite He, exp_plus, exp_ln by (apply Rdiv_lt_0_compat; assumption).
  replace (r * T - q * T) with (- (- r * T) + - q * T) by ring.
  rewrite exp_plus, exp_Ropp.
  pose proof (exp_pos (- r * T)). field. lra.
Qed.

Lemma call_value_kernel :
  spot * exp (- q * T) * norm_cdf d1_value
  - strike * exp (- r * T) * norm_cdf (d1_value - total_vol)
  = strike * exp (- r * T) * call_kernel total_vol d1_value.
Proof. rewrite forward_identity. unfold call_kernel. ring. Qed.

Lemma put_value_kernel :
  strike * exp (- r * T) * norm_cdf (- (d1_value - total_vol))
  - spot * exp (- q * T) * norm_cdf (- d1_value)
  = strike * exp (- r * T) * put_kernel total_vol d1_value.
Proof. rewrite forward_identity. unfold put_kernel. ring. Qed.

Lemma discounted_strike_pos : 0 < strike * exp (- r * T).
Proof. apply Rmult_lt_0_compat; [exact strike_pos | apply exp_pos]. Qed.

End ValidInputs.

Lemma d1_value_mono (s1 s2 strike T sigma r q : R) :
  0 < strike -> 0 < T -> 0 < sigma -> 0 < s1 <= s2 ->
  d1_value s1 strike T sigma r q <= d1_value s2 strike T sigma r q.
Proof.
  intros HK HT Hs [H1 H12]. unfold d1_value.
  pose proof (total_vol_pos T sigma HT Hs) as Hv. unfold total_vol in Hv.
  apply Rmult_le_compat_r; [apply Rlt_le, Rinv_0_lt_compat, Hv |].
  apply Rplus_le_compat_r.
  destruct H12 as [Hlt | ->]; [| lra].
  apply Rlt_le, ln_increasing.
  - apply Rdiv_lt_0_compat; assumption.
  - apply Rmult_lt_compat_r; [apply Rinv_0_lt_compat, HK | exact Hlt].
Qed.

(** ** The pricing function where [norm.cdf] underflows *)

Lemma price_with_norm_cdf (o : string) (spot strike T sigma r q : R) :
  calculate_option_price_with norm_cdf o spot strike T sigma r q
  = calculate_option_price o spot strike T sigma r q.
Proof. reflexivity. Qed.







Section Underflow.

Let T : R := 2 / 365.
Let v : R := total_vol T 0.1.







End Underflow.

(** * The properties of the pricing engine *)

(** C1. On valid inputs with time left, [calculate_option_price] returns the
    Black-Scholes-Merton closed form of the specification: the call formula
    for ['call'] and the put formula for ['put']. *)
Theorem price_is_black_scholes_merton (spot strike T sigma r q : R) :
  0 < strike -> 0 < spot -> 0 < T -> 0 < sigma ->
  calculate_option_price "call" spot strike T sigma r q
    = Returns (spec_call_price spot strike T sigma r q)
  /\ calculate_option_price "put" spot strike T sigma r q
    = Returns (spec_put_price spot strike T sigma r q).
Proof.
  intros HK HS HT Hs.
  assert (Hd1 : spec_d1 spot strike T sigma r q = d1_value spot strike T sigma r q).
  { unfold spec_d1, d1_value, Rsqr. do 4 f_equal. ring. }
  assert (Hq : - (q * T) = - q * T) by ring.
  assert (Hr : - (r * T) = - r * T) by ring.
  split; rewrite price_returns by assumption; simpl; f_equal;
    unfold spec_call_price, spec_put_price, spec_d2, total_vol;
    rewrite Hd1, Hq, Hr; reflexivity.
Qed.

Lemma price_is_black_scholes_merton_witness :
  calculate_option_price "call" 100 100 1 0.3 0.025 0
    = Returns (spec_call_price 100 100 1 0.3 0.025 0)
  /\ calculate_option_price "put" 100 100 1 0.3 0.025 0
    = Returns (spec_put_price 100 100 1 0.3 0.025 0).
Proof. apply price_is_black_scholes_merton; lra. Defined.

(** C2. Put-call parity: on valid inputs with time left, the call price
    minus the put price is [spot * exp (- q T) - strike * exp (- r T)]. *)
Theorem put_call_parity (spot strike T sigma r q : R) :
  0 < strike -> 0 < spot -> 0 < T -> 0 < sigma ->
  exists c p,
    calculate_option_price "call" spot strike T sigma r q = Returns c
    /\ calculate_option_price "put" spot strike T sigma r q = Returns p
    /\ c - p = spot * exp (- (q * T)) - strike * exp (- (r * T)).
Proof.
  intros HK HS HT Hs.
  do 2 eexists. rewrite !price_returns by assumption. simpl.
  split; [reflexivity | split; [reflexivity |]].
  rewrite !norm_cdf_sym.
  replace (- (q * T)) with (- q * T) by ring.
  replace (- (r * T)) with (- r * T) by ring. ring.
Qed.

Lemma put_call_parity_witness :
  exists c p,
    calculate_option_price "call" 100 100 1 0.3 0.025 0 = Returns c
    /\ calculate_option_price "put" 100 100 1 0.3 0.025 0 = Returns p
    /\ c - p = 100 * exp (- (0 * 1)) - 100 * exp (- (0.025 * 1)).
Proof. apply put_call_parity; lra. Defined.

(** C3. An expired option ([time_to_expiry <= 0]) is worth its intrinsic
    value, [max(0, spot - strike)] for ['call'] and [max(0, strike - spot)]
    for any other type, and its five Greeks are all exactly zero, whatever
    the volatility, the rate and the dividend yield. *)
Theorem expired_option (o : string) (spot strike T sigma r q : R) :
  T <= 0 ->
  (o = "call" ->
     calculate_option_price o spot strike T sigma r q
       = Returns (Rmax 0 (spot - strike)))
  /\ (o <> "call" ->
     calculate_option_price o spot strike T sigma r q
       = Returns (Rmax 0 (strike - spot)))
  /\ exists g,
       calculate_option_greeks o spot strike T sigma r q = Returns g
       /\ delta g = 0 /\ gamma g = 0 /\ theta g = 0 /\ vega g = 0 /\ rho g = 0.
Proof.
  intros HT. unfold calculate_option_price, calculate_option_greeks.
  destruct (Rle_dec T 0); [| contradiction].
  repeat split.
  - intros ->. rewrite is_call_call, py_max_Rmax. reflexivity.
  - intros Ho. rewrite (is_call_other o Ho), py_max_Rmax. reflexivity.
  - eexists. split; [reflexivity |]. simpl. repeat split; reflexivity.
Qed.

Lemma expired_option_witness :
  ("call" = "call" ->
     calculate_option_price "call" 110 100 0 0.3 0.025 0
       = Returns (Rmax 0 (110 - 100)))
  /\ ("call" <> "call" ->
     calculate_option_price "call" 110 100 0 0.3 0.025 0
       = Returns (Rmax 0 (100 - 110)))
  /\ exists g,
       calculate_option_greeks "call" 110 100 0 0.3 0.025 0 = Returns g
       /\ delta g = 0 /\ gamma g = 0 /\ theta g = 0 /\ vega g = 0 /\ rho g = 0.
Proof. apply expired_option. lra. Defined.

(** C4. On inputs that meet the preconditions ([strike > 0], [spot > 0], and
    [volatility > 0] whenever [time_to_expiry > 0]) the price is returned
    and is non-negative, for every option type. *)
Theorem price_nonneg (o : string) (spot strike T sigma r q : R) :
  0 < strike -> 0 < spot -> (0 < T -> 0 < sigma) ->
  exists p,
    calculate_option_price o spot strike T sigma r q = Returns p /\ 0 <= p.
Proof.
  intros HK HS Hs.
  destruct (Rle_dec T 0) as [HT | HT].
  - unfold calculate_option_price. destruct (Rle_dec T 0); [| contradiction].
    destruct (is_call o); eexists; (split; [reflexivity |]);
      rewrite py_max_Rmax; apply Rmax_l.
  - assert (HT' : 0 < T) by lra. specialize (Hs HT').
    eexists. split; [apply price_returns; assumption |].
    pose proof (discounted_strike_pos strike T r HK) as Hc.
    pose proof (total_vol_pos T sigma HT' Hs) as Hv.
    destruct (is_call o).
    + rewrite call_value_kernel by assumption.
      apply Rmult_le_pos; [lra | apply call_kernel_nonneg; lra].
    + rewrite put_value_kernel by assumption.
      apply Rmult_le_pos; [lra | apply put_kernel_nonneg; lra].
Qed.

Lemma price_nonneg_witness :
  exists p,
    calculate_option_price "put" 90 100 1 0.3 0.025 0 = Returns p /\ 0 <= p.
Proof. apply price_nonneg; intros; lra. Defined.

(** C5. On valid inputs with time left, the delta of a call lies between
    [0] and [exp (- q T)] and the delta of a put between [- exp (- q T)]
    and [0]. *)
Theorem delta_bounds (spot strike T sigma r q : R) :
  0 < strike -> 0 < spot -> 0 < T -> 0 < sigma -> 0 <= q ->
  (exists g, calculate_option_greeks "call" spot strike T sigma r q = Returns g
             /\ 0 <= delta g <= exp (- (q * T)))
  /\ (exists g, calculate_option_greeks "put" spot strike T sigma r q = Returns g
             /\ - exp (- (q * T)) <= delta g <= 0).
Proof.
  intros HK HS HT Hs _.
  replace (- (q * T)) with (- q * T) by ring.
  pose proof (exp_pos (- q * T)) as He.
  pose proof (norm_cdf_bounds (d1_value spot strike T sigma r q)) as [H0 H1].
  split.
  - destruct (greeks_return spot strike T sigma r q HK HS HT Hs "call")
      as [g [Hg [Hd _]]].
    exists g. split; [exact Hg |]. rewrite Hd. simpl. nra.
  - destruct (greeks_return spot strike T sigma r q HK HS HT Hs "put")
      as [g [Hg [Hd _]]].
    exists g. split; [exact Hg |]. rewrite Hd. simpl. nra.
Qed.

Lemma delta_bounds_witness :
  (exists g, calculate_option_greeks "call" 100 100 1 0.3 0.025 0 = Returns g
             /\ 0 <= delta g <= exp (- (0 * 1)))
  /\ (exists g, calculate_option_greeks "put" 100 100 1 0.3 0.025 0 = Returns g
             /\ - exp (- (0 * 1)) <= delta g <= 0).
Proof. apply delta_bounds; lra. Defined.

(** C6. On valid inputs with time left, gamma is non-negative for every
    option type, and the gamma of a call equals the gamma of a put on the
    same numbers. *)
Theorem gamma_nonneg_and_shared (o : string) (spot strike T sigma r q : R) :
  0 < strike -> 0 < spot -> 0 < T -> 0 < sigma -> 0 <= q ->
  (exists g, calculate_option_greeks o spot strike T sigma r q = Returns g
             /\ 0 <= gamma g)
  /\ (exists gc gp,
        calculate_option_greeks "call" spot strike T sigma r q = Returns gc
        /\ calculate_option_greeks "put" spot strike T sigma r q = Returns gp
        /\ gamma gc = gamma gp).
Proof.
  intros HK HS HT Hs _. split.
  - destruct (greeks_return spot strike T sigma r q HK HS HT Hs o)
      as [g [Hg [_ Hgam]]].
    exists g. split; [exact Hg |]. rewrite Hgam.
    pose proof (total_vol_pos T sigma HT Hs) as Hv. unfold total_vol in Hv.
    apply Rlt_le, Rdiv_lt_0_compat.
    + apply Rmult_lt_0_compat; [apply exp_pos | apply norm_pdf_pos].
    + rewrite Rmult_assoc. apply Rmult_lt_0_compat; assumption.
  - destruct (greeks_return spot strike T sigma r q HK HS HT Hs "call")
      as [gc [Hc [_ Hgc]]].
    destruct (greeks_return spot strike T sigma r q HK HS HT Hs "put")
      as [gp [Hp [_ Hgp]]].
    exists gc, gp. repeat split; [exact Hc | exact Hp |].
    rewrite Hgc, Hgp. reflexivity.
Qed.

Lemma gamma_nonneg_and_shared_witness :
  (exists g, calculate_option_greeks "put" 100 100 1 0.3 0.025 0 = Returns g
             /\ 0 <= gamma g)
  /\ (exists gc gp,
        calculate_option_greeks "call" 100 100 1 0.3 0.025 0 = Returns gc
        /\ calculate_option_greeks "put" 100 100 1 0.3 0.025 0 = Returns gp
        /\ gamma gc = gamma gp).
Proof. apply gamma_nonneg_and_shared; lra. Defined.




(** C8. For a non-zero strike, [is_itm_atm_otm] returns ATM whenever
    [|spot - strike| / strike <= threshold], whatever the option type;
    otherwise a call is ITM when [spot > strike] and OTM if not, and a put
    is ITM when [spot < strike] and OTM if not. *)
Theorem moneyness_classification (o : string) (spot strike threshold : R) :
  strike <> 0 ->
  (Rabs (spot - strike) / strike <= threshold ->
     is_itm_atm_otm o spot strike threshold = Returns ATM)
  /\ (~ Rabs (spot - strike) / strike <= threshold ->
      (spot > strike ->
         is_itm_atm_otm "call" spot strike threshold = Returns ITM)
      /\ (~ spot > strike ->
         is_itm_atm_otm "call" spot strike threshold = Returns OTM)
      /\ (spot < strike ->
         is_itm_atm_otm "put" spot strike threshold = Returns ITM)
      /\ (~ spot < strike ->
         is_itm_atm_otm "put" spot strike threshold = Returns OTM)).
Proof.
  intros HK. unfold is_itm_atm_otm, py_div, bind.
  destruct (Req_EM_T strike 0); [contradiction |].
  destruct (Rle_dec (Rabs (spot - strike) / strike) threshold) as [Ha | Ha].
  - split; [reflexivity | contradiction].
  - split; [contradiction | intros _]. simpl.
    destruct (Rlt_dec strike spot), (Rlt_dec spot strike);
      repeat split; intros; solve [reflexivity | lra].
Qed.

Lemma moneyness_classification_witness :
  (Rabs (110 - 100) / 100 <= 0.01 ->
     is_itm_atm_otm "call" 110 100 0.01 = Returns ATM)
  /\ (~ Rabs (110 - 100) / 100 <= 0.01 ->
      (110 > 100 -> is_itm_atm_otm "call" 110 100 0.01 = Returns ITM)
      /\ (~ 110 > 100 -> is_itm_atm_otm "call" 110 100 0.01 = Returns OTM)
      /\ (110 < 100 -> is_itm_atm_otm "put" 110 100 0.01 = Returns ITM)
      /\ (~ 110 < 100 -> is_itm_atm_otm "put" 110 100 0.01 = Returns OTM)).
Proof. apply moneyness_classification. lra. Defined.

(** C9. An option type that is not exactly ['call'] is priced as a put:
    both functions return what they return for ['put'], on every numeric
    input, and raise nothing of their own for the unknown type. *)
Theorem unrecognized_type_is_put (o : string) (spot strike T sigma r q : R) :
  o <> "call" ->
  calculate_option_price o spot strike T sigma r q
    = calculate_option_price "put" spot strike T sigma r q
  /\ calculate_option_greeks o spot strike T sigma r q
    = calculate_option_greeks "put" spot strike T sigma r q.
Proof.
  intros Ho. unfold calculate_option_price, calculate_option_greeks.
  rewrite (is_call_other o Ho), is_call_put. split; reflexivity.
Qed.

Lemma unrecognized_type_is_put_witness :
  calculate_option_price "Call" 100 100 1 0.3 0.025 0
    = calculate_option_price "put" 100 100 1 0.3 0.025 0
  /\ calculate_option_greeks "Call" 100 100 1 0.3 0.025 0
    = calculate_option_greeks "put" 100 100 1 0.3 0.025 0.
Proof. apply unrecognized_type_is_put. discriminate. Defined.

(** C10. Moneyness duality: for a positive strike and a non-negative
    threshold, the call and the put on the same spot, strike and threshold
    are both ATM, or one is ITM and the other OTM. *)
Theorem moneyness_duality (spot strike threshold : R) :
  0 < strike -> 0 <= threshold ->
  exists c p,
    is_itm_atm_otm "call" spot strike threshold = Returns c
    /\ is_itm_atm_otm "put" spot strike threshold = Returns p
    /\ ((c = ATM /\ p = ATM) \/ (c = ITM /\ p = OTM) \/ (c = OTM /\ p = ITM)).
Proof.
  intros HK Ht. unfold is_itm_atm_otm, py_div, bind.
  destruct (Req_EM_T strike 0); [lra |].
  destruct (Rle_dec (Rabs (spot - strike) / strike) threshold) as [Ha | Ha].
  - exists ATM, ATM. auto.
  - simpl. assert (Hne : spot <> strike).
    { intros ->. apply Ha. rewrite Rminus_diag, Rabs_R0. unfold Rdiv.
      rewrite Rmult_0_l. exact Ht. }
    destruct (Rlt_dec strike spot), (Rlt_dec spot strike);
      do 2 eexists; (split; [reflexivity | split; [reflexivity |]]);
      solve [auto | lra].
Qed.

Lemma moneyness_duality_witness :
  exists c p,
    is_itm_atm_otm "call" 110 100 0.01 = Returns c
    /\ is_itm_atm_otm "put" 110 100 0.01 = Returns p
    /\ ((c = ATM /\ p = ATM) \/ (c = ITM /\ p = OTM) \/ (c = OTM /\ p = ITM)).
Proof. apply moneyness_duality; lra. Defined.

(** * The concrete cases of the specification *)

Example expired_call_110_100 (sigma r q : R) :
  calculate_option_price "call" 110 100 0 sigma r q = Returns 10.
Proof.
  unfold calculate_option_price. destruct (Rle_dec 0 0); [| lra].
  simpl. unfold py_max. destruct (Rlt_dec 0 (110 - 100)); f_equal; lra.
Qed.

Example expired_put_90_100 (sigma r q : R) :
  calculate_option_price "put" 90 100 0 sigma r q = Returns 10.
Proof.
  unfold calculate_option_price. destruct (Rle_dec 0 0); [| lra].
  simpl. unfold py_max. destruct (Rlt_dec 0 (100 - 90)); f_equal; lra.
Qed.

Example call_110_100_is_ITM : is_itm_atm_otm "call" 110 100 0.01 = Returns ITM.
Proof.
  unfold is_itm_atm_otm, py_div, bind.
  destruct (Req_EM_T 100 0); [lra |].
  rewrite (Rabs_pos_eq (110 - 100)) by lra.
  destruct (Rle_dec ((110 - 100) / 100) 0.01); [lra |]. simpl.
  destruct (Rlt_dec 100 110); [reflexivity | lra].
Qed.

Example call_100_5_100_is_ATM :
  is_itm_atm_otm "call" 100.5 100 0.01 = Returns ATM.
Proof.
  unfold is_itm_atm_otm, py_div, bind.
  destruct (Req_EM_T 100 0); [lra |].
  rewrite (Rabs_pos_eq (100.5 - 100)) by lra.
  destruct (Rle_dec ((100.5 - 100) / 100) 0.01); [reflexivity | lra].
Qed.

Example put_110_100_is_OTM : is_itm_atm_otm "put" 110 100 0.01 = Returns OTM.
Proof.
  unfold is_itm_atm_otm, py_div, bind.
  destruct (Req_EM_T 100 0); [lra |].
  rewrite (Rabs_pos_eq (110 - 100)) by lra.
  destruct (Rle_dec ((110 - 100) / 100) 0.01); [lra |]. simpl.
  destruct (Rlt_dec 110 100); [lra | reflexivity].
Qed.

Example zero_strike_raises (o : string) (spot threshold : R) :
  is_itm_atm_otm o spot 0 threshold = ZeroDivisionError.
Proof.
  unfold is_itm_atm_otm, py_div, bind.
  destruct (Req_EM_T 0 0); [reflexivity | lra].
Qed.

(** * Beyond the claims: the other Greeks *)

Section AllGreeks.

Variables spot strike T sigma r q : R.
Hypothesis strike_pos : 0 < strike.
Hypothesis spot_pos : 0 < spot.
Hypothesis T_pos : 0 < T.
Hypothesis sigma_pos : 0 < sigma.

Local Abbreviation d1 := (d1_value spot strike T sigma r q).
Local Abbreviation d2 := (d1_value spot strike T sigma r q - total_vol T sigma).

(** The five entries of the dictionary on valid inputs. *)
Lemma greeks_fields (o : string) :
  exists g, calculate_option_greeks o spot strike T sigma r q = Returns g
    /\ delta g = (if is_call o then exp (- q * T) * norm_cdf d1
                  else exp (- q * T) * (norm_cdf d1 - 1))
    /\ gamma g = exp (- q * T) * norm_pdf d1 / (spot * sigma * sqrt T)
    /\ vega g = 0.01 * spot * exp (- q * T) * norm_pdf d1 * sqrt T
    /\ theta g =
         (if is_call o then
            - exp (- q * T) * spot * norm_pdf d1 * sigma / (2 * sqrt T)
            - r * strike * exp (- r * T) * norm_cdf d2
            + q * spot * exp (- q * T) * norm_cdf d1
          else
            - exp (- q * T) * spot * norm_pdf d1 * sigma / (2 * sqrt T)
            + r * strike * exp (- r * T) * norm_cdf (- d2)
            - q * spot * exp (- q * T) * norm_cdf (- d1)) / 365
    /\ rho g = (if is_call o then
                  0.01 * strike * T * exp (- r * T) * norm_cdf d2
                else
                  - 0.01 * strike * T * exp (- r * T) * norm_cdf (- d2)).
Proof.
  unfold calculate_option_greeks.
  destruct (Rle_dec T 0); [lra |].
  rewrite d1_expr_returns by assumption. unfold bind, total_vol.
  eexists. split; [reflexivity |]. simpl.
  destruct (is_call o); repeat split; reflexivity.
Qed.

Lemma sqrt_T_pos : 0 < sqrt T.
Proof. apply sqrt_lt_R0, T_pos. Qed.

Lemma sqrt_T_sqr : sqrt T * sqrt T = T.
Proof. apply sqrt_sqrt. lra. Qed.

(** The two Gaussian terms of the price weigh the same. *)
Lemma density_balance :
  spot * exp (- q * T) * norm_pdf d1 = strike * exp (- r * T) * norm_pdf d2.
Proof.
  rewrite (forward_identity spot strike T sigma r q) by assumption.
  rewrite <- (tilt_pdf (total_vol T sigma) d1). ring.
Qed.

End AllGreeks.

(** X1. On valid inputs with time left, vega is never negative, is the same
    number for a call and for a put, and is
    [0.01 * spot^2 * volatility * time_to_expiry] times gamma. *)
Theorem vega_nonneg_shared (o : string) (spot strike T sigma r q : R) :
  0 < strike -> 0 < spot -> 0 < T -> 0 < sigma ->
  exists g gc,
    calculate_option_greeks o spot strike T sigma r q = Returns g
    /\ calculate_option_greeks "call" spot strike T sigma r q = Returns gc
    /\ 0 <= vega g
    /\ vega g = vega gc
    /\ vega g = 0.01 * spot ^ 2 * sigma * T * gamma g.
Proof.
  intros HK HS HT Hs.
  destruct (greeks_fields spot strike T sigma r q HK HS HT Hs o)
    as [g [Hg [_ [Hgam [Hv _]]]]].
  destruct (greeks_fields spot strike T sigma r q HK HS HT Hs "call")
    as [gc [Hgc [_ [_ [Hvc _]]]]].
  exists g, gc. split; [exact Hg | split; [exact Hgc |]].
  pose proof (sqrt_T_pos T HT) as Hsq. pose proof (sqrt_T_sqr T HT) as Hsq2.
  pose proof (exp_pos (- q * T)) as He.
  pose proof (norm_pdf_pos (d1_value spot strike T sigma r q)) as Hn.
  split; [| split].
  - rewrite Hv.
    apply Rmult_le_pos; [| lra].
    apply Rmult_le_pos; [| lra].
    apply Rmult_le_pos; lra.
  - rewrite Hv, Hvc. reflexivity.
  - rewrite Hv, Hgam. replace 0.01 with (/ 100) by lra.
    replace (/ 100 * spot ^ 2 * sigma * T)
      with (/ 100 * spot ^ 2 * sigma * (sqrt T * sqrt T))
      by (rewrite Hsq2; reflexivity).
    field. lra.
Qed.

Lemma vega_nonneg_shared_witness :
  exists g gc,
    calculate_option_greeks "put" 100 100 1 0.3 0.025 0 = Returns g
    /\ calculate_option_greeks "call" 100 100 1 0.3 0.025 0 = Returns gc
    /\ 0 <= vega g
    /\ vega g = vega gc
    /\ vega g = 0.01 * 100 ^ 2 * 0.3 * 1 * gamma g.
Proof. apply vega_nonneg_shared; lra. Defined.

(** X2. On valid inputs with time left, the rho of a call is never negative
    and the rho of any other option type never positive. *)
Theorem rho_sign (o : string) (spot strike T sigma r q : R) :
  0 < strike -> 0 < spot -> 0 < T -> 0 < sigma ->
  exists g,
    calculate_option_greeks o spot strike T sigma r q = Returns g
    /\ (o = "call" -> 0 <= rho g)
    /\ (o <> "call" -> rho g <= 0).
Proof.
  intros HK HS HT Hs.
  destruct (greeks_fields spot strike T sigma r q HK HS HT Hs o)
    as [g [Hg [_ [_ [_ [_ Hr]]]]]].
  exists g. split; [exact Hg |].
  pose proof (exp_pos (- r * T)) as He.
  set (d2 := d1_value spot strike T sigma r q - total_vol T sigma) in *.
  pose proof (norm_cdf_bounds d2) as [Hp _].
  pose proof (norm_cdf_bounds (- d2)) as [Hn _].
  assert (Hc : 0 < strike * T * exp (- r * T))
    by (repeat apply Rmult_lt_0_compat; lra).
  split.
  - intros ->. rewrite is_call_call in Hr. rewrite Hr. nra.
  - intros Ho. rewrite (is_call_other o Ho) in Hr. rewrite Hr. nra.
Qed.

Lemma rho_sign_witness :
  (exists g,
     calculate_option_greeks "call" 100 100 1 0.3 0.025 0 = Returns g
     /\ 0 <= rho g)
  /\ (exists g,
     calculate_option_greeks "put" 100 100 1 0.3 0.025 0 = Returns g
     /\ rho g <= 0).
Proof.
  split.
  - destruct (rho_sign "call" 100 100 1 0.3 0.025 0) as [g [Hg [Hc _]]];
      try lra.
    exists g. split; [exact Hg | apply Hc; reflexivity].
  - destruct (rho_sign "put" 100 100 1 0.3 0.025 0) as [g [Hg [_ Hp]]];
      try lra.
    exists g. split; [exact Hg | apply Hp; discriminate].
Defined.

(** X3. Parity of the Greeks: on valid inputs with time left, call delta
    minus put delta is [exp (- q T)], call rho minus put rho is
    [0.01 * strike * T * exp (- r T)], and call theta minus put theta is
    [(q * spot * exp (- q T) - r * strike * exp (- r T)) / 365]. *)
Theorem greeks_parity (spot strike T sigma r q : R) :
  0 < strike -> 0 < spot -> 0 < T -> 0 < sigma ->
  exists gc gp,
    calculate_option_greeks "call" spot strike T sigma r q = Returns gc
    /\ calculate_option_greeks "put" spot strike T sigma r q = Returns gp
    /\ delta gc - delta gp = exp (- (q * T))
    /\ rho gc - rho gp = 0.01 * strike * T * exp (- (r * T))
    /\ theta gc - theta gp
       = (q * spot * exp (- (q * T)) - r * strike * exp (- (r * T))) / 365.
Proof.
  intros HK HS HT Hs.
  replace (- (q * T)) with (- q * T) by ring.
  replace (- (r * T)) with (- r * T) by ring.
  destruct (greeks_fields spot strike T sigma r q HK HS HT Hs "call")
    as [gc [Hgc [Hdc [_ [_ [Htc Hrc]]]]]].
  destruct (greeks_fields spot strike T sigma r q HK HS HT Hs "put")
    as [gp [Hgp [Hdp [_ [_ [Htp Hrp]]]]]].
  exists gc, gp. split; [exact Hgc | split; [exact Hgp |]].
  rewrite Hdc, Hdp, Hrc, Hrp, Htc, Htp. simpl.
  rewrite !norm_cdf_sym. repeat split; lra.
Qed.

Lemma greeks_parity_witness :
  exists gc gp,
    calculate_option_greeks "call" 100 100 1 0.3 0.025 0 = Returns gc
    /\ calculate_option_greeks "put" 100 100 1 0.3 0.025 0 = Returns gp
    /\ delta gc - delta gp = exp (- (0 * 1))
    /\ rho gc - rho gp = 0.01 * 100 * 1 * exp (- (0.025 * 1))
    /\ theta gc - theta gp
       = (0 * 100 * exp (- (0 * 1)) - 0.025 * 100 * exp (- (0.025 * 1))) / 365.
Proof. apply greeks_parity; lra. Defined.

(** X4. The price and the Greeks satisfy the Black-Scholes equation: on
    valid inputs with time left and for every option type,
    [365 * theta + (r - q) * spot * delta + 0.5 * sigma^2 * spot^2 * gamma]
    equals [r] times the price. *)
Theorem black_scholes_equation (o : string) (spot strike T sigma r q : R) :
  0 < strike -> 0 < spot -> 0 < T -> 0 < sigma ->
  exists g p,
    calculate_option_greeks o spot strike T sigma r q = Returns g
    /\ calculate_option_price o spot strike T sigma r q = Returns p
    /\ 365 * theta g + (r - q) * spot * delta g
       + 0.5 * sigma ^ 2 * spot ^ 2 * gamma g = r * p.
Proof.
  intros HK HS HT Hs.
  destruct (greeks_fields spot strike T sigma r q HK HS HT Hs o)
    as [g [Hg [Hd [Hgam [_ [Ht _]]]]]].
  exists g. eexists. split; [exact Hg |].
  split; [apply price_returns; assumption |].
  pose proof (sqrt_T_pos T HT) as Hsq.
  rewrite Hd, Hgam, Ht.
  replace 0.5 with (/ 2) by lra.
  destruct (is_call o).
  - field. lra.
  - rewrite !norm_cdf_sym. field. lra.
Qed.

Lemma black_scholes_equation_witness :
  exists g p,
    calculate_option_greeks "call" 100 100 1 0.3 0.025 0 = Returns g
    /\ calculate_option_price "call" 100 100 1 0.3 0.025 0 = Returns p
    /\ 365 * theta g + (0.025 - 0) * 100 * delta g
       + 0.5 * 0.3 ^ 2 * 100 ^ 2 * gamma g = 0.025 * p.
Proof. apply black_scholes_equation; lra. Defined.

(** Bounds on the two closed forms. *)
Lemma closed_form_bounds (spot strike T sigma r q : R) :
  0 < strike -> 0 < spot -> 0 < T -> 0 < sigma ->
  let x := d1_value spot strike T sigma r q in
  let v := total_vol T sigma in
  let c := spot * exp (- q * T) * norm_cdf x
           - strike * exp (- r * T) * norm_cdf (x - v) in
  let p := strike * exp (- r * T) * norm_cdf (- (x - v))
           - spot * exp (- q * T) * norm_cdf (- x) in
  (0 <= c /\ spot * exp (- q * T) - strike * exp (- r * T) <= c
   /\ c < spot * exp (- q * T))
  /\ (0 <= p /\ strike * exp (- r * T) - spot * exp (- q * T) <= p
      /\ p < strike * exp (- r * T)).
Proof.
  intros HK HS HT Hs x v c p.
  pose proof (discounted_strike_pos strike T r HK) as Hc.
  pose proof (total_vol_pos T sigma HT Hs) as Hv. fold v in Hv.
  assert (Ha : 0 < spot * exp (- q * T))
    by (apply Rmult_lt_0_compat; [exact HS | apply exp_pos]).
  pose proof (call_kernel_nonneg v ltac:(lra) x) as Hck.
  pose proof (put_kernel_nonneg v ltac:(lra) x) as Hpk.
  pose proof (call_value_kernel spot strike T sigma r q HK HS HT Hs) as Hcv.
  pose proof (put_value_kernel spot strike T sigma r q HK HS HT Hs) as Hpv.
  fold x v c in Hcv. fold x v p in Hpv.
  assert (Hc0 : 0 <= c) by (rewrite Hcv; apply Rmult_le_pos; lra).
  assert (Hp0 : 0 <= p) by (rewrite Hpv; apply Rmult_le_pos; lra).
  assert (Hpar : c - p = spot * exp (- q * T) - strike * exp (- r * T))
    by (unfold c, p; rewrite !norm_cdf_sym; ring).
  pose proof (norm_cdf_open x) as [Hx0 Hx1].
  pose proof (norm_cdf_open (x - v)) as [Hy0 Hy1].
  assert (Hcu : c < spot * exp (- q * T)) by (unfold c; nra).
  assert (Hpu : p < strike * exp (- r * T))
    by (unfold p; rewrite !norm_cdf_sym; nra).
  repeat split; lra.
Qed.

(** X5. On valid inputs with time left, the call price never exceeds the
    discounted spot [spot * exp (- q T)] and the put price never exceeds
    the discounted strike [strike * exp (- r T)]. *)
Theorem price_upper_bounds (spot strike T sigma r q : R) :
  0 < strike -> 0 < spot -> 0 < T -> 0 < sigma ->
  exists c p,
    calculate_option_price "call" spot strike T sigma r q = Returns c
    /\ calculate_option_price "put" spot strike T sigma r q = Returns p
    /\ c <= spot * exp (- (q * T))
    /\ p <= strike * exp (- (r * T)).
Proof.
  intros HK HS HT Hs.
  replace (- (q * T)) with (- q * T) by ring.
  replace (- (r * T)) with (- r * T) by ring.
  pose proof (closed_form_bounds spot strike T sigma r q HK HS HT Hs)
    as [[_ [_ Hcu]] [_ [_ Hpu]]].
  do 2 eexists. rewrite !price_returns by assumption. simpl.
  split; [reflexivity | split; [reflexivity |]].
  split; apply Rlt_le; assumption.
Qed.

Lemma price_upper_bounds_witness :
  exists c p,
    calculate_option_price "call" 100 100 1 0.3 0.025 0 = Returns c
    /\ calculate_option_price "put" 100 100 1 0.3 0.025 0 = Returns p
    /\ c <= 100 * exp (- (0 * 1))
    /\ p <= 100 * exp (- (0.025 * 1)).
Proof. apply price_upper_bounds; lra. Defined.

(** * The Greeks as sensitivities of the price *)

(** The number a call returns, to differentiate it; zero where it returns
    none. *)
Definition returned (m : outcome R) : R :=
  match m with Returns a => a | _ => 0 end.

(** One entry of the dictionary a call returns. *)
Definition greek_of (entry : greeks -> R) (m : outcome greeks) : R :=
  match m with Returns g => entry g | _ => 0 end.

Lemma dl_div (f g : R -> R) (x lf lg : R) :
  derivable_pt_lim f x lf -> derivable_pt_lim g x lg -> g x <> 0 ->
  derivable_pt_lim (fun u => f u / g u) x ((lf * g x - lg * f x) / (g x)²).
Proof. intros Hf Hg Hx. exact (derivable_pt_lim_div f g x lf lg Hf Hg Hx). Qed.

Lemma dl_sqrt (x : R) : 0 < x -> derivable_pt_lim sqrt x (/ (2 * sqrt x)).
Proof. intros Hx. apply derivable_pt_lim_sqrt, Hx. Qed.

Section Sensitivity.

(** A price of the shape [A * Phi(D) - B * Phi(D - W)], all four depending
    on one parameter, at a point where the two Gaussian terms balance. *)

Variables A B D W : R -> R.
Variables p a' b' d' w' : R.
Hypothesis HA : derivable_pt_lim A p a'.
Hypothesis HB : derivable_pt_lim B p b'.
Hypothesis HD : derivable_pt_lim D p d'.
Hypothesis HW : derivable_pt_lim W p w'.
Hypothesis balance : A p * norm_pdf (D p) = B p * norm_pdf (D p - W p).

Lemma call_form_deriv :
  derivable_pt_lim (fun u => A u * norm_cdf (D u) - B u * norm_cdf (D u - W u)) p
    (a' * norm_cdf (D p) - b' * norm_cdf (D p - W p)
     + B p * norm_pdf (D p - W p) * w').
Proof.
  apply dlim_eq with
    ((a' * norm_cdf (D p) + A p * (norm_pdf (D p) * d'))
     - (b' * norm_cdf (D p - W p)
        + B p * (norm_pdf (D p - W p) * (d' - w')))).
  - apply (dl_minus (fun u => A u * norm_cdf (D u))
             (fun u => B u * norm_cdf (D u - W u))).
    + apply (dl_mult A (fun u => norm_cdf (D u))); [exact HA |].
      apply (dl_comp D); [exact HD | apply norm_cdf_deriv].
    + apply (dl_mult B (fun u => norm_cdf (D u - W u))); [exact HB |].
      apply (dl_comp (fun u => D u - W u)); [| apply norm_cdf_deriv].
      apply (dl_minus D W); assumption.
  - rewrite <- Rmult_assoc, balance. ring.
Qed.

Lemma put_form_deriv :
  derivable_pt_lim
    (fun u => B u * norm_cdf (- (D u - W u)) - A u * norm_cdf (- D u)) p
    (b' * norm_cdf (- (D p - W p)) - a' * norm_cdf (- D p)
     + B p * norm_pdf (D p - W p) * w').
Proof.
  apply derivable_pt_lim_ext with
    (f := fun u => (A u * norm_cdf (D u) - B u * norm_cdf (D u - W u))
                   - A u + B u).
  - intros u. rewrite !norm_cdf_sym. ring.
  - apply dlim_eq with
      (a' * norm_cdf (D p) - b' * norm_cdf (D p - W p)
       + B p * norm_pdf (D p - W p) * w' - a' + b').
    + apply (dl_plus
               (fun u => A u * norm_cdf (D u) - B u * norm_cdf (D u - W u) - A u)
               B); [| exact HB].
      apply (dl_minus
               (fun u => A u * norm_cdf (D u) - B u * norm_cdf (D u - W u))
               A); [apply call_form_deriv | exact HA].
    + rewrite !norm_cdf_sym. ring.
Qed.

End Sensitivity.

Section PartialDerivatives.

Variables spot strike T sigma r q : R.
Hypothesis strike_pos : 0 < strike.
Hypothesis spot_pos : 0 < spot.
Hypothesis T_pos : 0 < T.
Hypothesis sigma_pos : 0 < sigma.

Lemma d1_spot_deriv :
  derivable_pt_lim (fun u => d1_value u strike T sigma r q) spot
    (/ (spot * sigma * sqrt T)).
Proof.
  pose proof (total_vol_pos T sigma T_pos sigma_pos) as Hv.
  unfold total_vol in Hv. unfold d1_value, Rdiv.
  apply dlim_eq with
    ((/ (spot * / strike) * / strike + 0) * / (sigma * sqrt T)
     + (ln (spot * / strike)
        + (r - q + 0.5 * sigma ^ 2) * T) * 0).
  - apply (dl_mult (fun u => ln (u * / strike)
                             + (r - q + 0.5 * sigma ^ 2) * T)
             (fun _ => / (sigma * sqrt T))); [| apply dl_const].
    apply (dl_plus (fun u => ln (u * / strike))); [| apply dl_const].
    apply (dl_comp (fun u => u * / strike)).
    + apply dlim_eq with (1 * / strike + spot * 0); [| ring].
      apply (dl_mult (fun u => u) (fun _ => / strike));
        [apply dl_id | apply dl_const].
    + apply derivable_pt_lim_ln. apply Rmult_lt_0_compat;
        [exact spot_pos | apply Rinv_0_lt_compat, strike_pos].
  - pose proof (sqrt_T_pos T T_pos). field. repeat split; lra.
Qed.

Lemma d1_sigma_deriv :
  exists l, derivable_pt_lim (fun u => d1_value spot strike T u r q) sigma l.
Proof.
  pose proof (total_vol_pos T sigma T_pos sigma_pos) as Hv.
  unfold total_vol in Hv. unfold d1_value. eexists.
  apply (dl_div (fun u => ln (spot / strike) + (r - q + 0.5 * u ^ 2) * T)
           (fun u => u * sqrt T)).
  - repeat dl_step.
  - repeat dl_step.
  - lra.
Qed.

Lemma d1_rate_deriv :
  exists l, derivable_pt_lim (fun u => d1_value spot strike T sigma u q) r l.
Proof.
  pose proof (total_vol_pos T sigma T_pos sigma_pos) as Hv.
  unfold total_vol in Hv. unfold d1_value. eexists.
  apply (dl_div (fun u => ln (spot / strike) + (u - q + 0.5 * sigma ^ 2) * T)
           (fun _ => sigma * sqrt T)).
  - repeat dl_step.
  - repeat dl_step.
  - lra.
Qed.

Lemma total_vol_time_deriv :
  derivable_pt_lim (fun u => sigma * sqrt u) T (sigma * / (2 * sqrt T)).
Proof.
  apply (derivable_pt_lim_scal sqrt sigma), dl_sqrt, T_pos.
Qed.

Lemma d1_time_deriv :
  exists l, derivable_pt_lim (fun u => d1_value spot strike u sigma r q) T l.
Proof.
  pose proof (total_vol_pos T sigma T_pos sigma_pos) as Hv.
  unfold total_vol in Hv. unfold d1_value. eexists.
  apply (dl_div (fun u => ln (spot / strike) + (r - q + 0.5 * sigma ^ 2) * u)
           (fun u => sigma * sqrt u)).
  - repeat dl_step.
  - apply total_vol_time_deriv.
  - lra.
Qed.

Lemma price_form (o : string) (s k t v rr qq : R) :
  0 < k -> 0 < s -> 0 < t -> 0 < v ->
  returned (calculate_option_price o s k t v rr qq) =
  if is_call o then
    s * exp (- qq * t) * norm_cdf (d1_value s k t v rr qq)
    - k * exp (- rr * t) * norm_cdf (d1_value s k t v rr qq - total_vol t v)
  else
    k * exp (- rr * t) * norm_cdf (- (d1_value s k t v rr qq - total_vol t v))
    - s * exp (- qq * t) * norm_cdf (- d1_value s k t v rr qq).
Proof.
  intros Hk Hs Ht Hv. rewrite price_returns by assumption.
  destruct (is_call o); reflexivity.
Qed.

Lemma delta_form (o : string) (s k t v rr qq : R) :
  0 < k -> 0 < s -> 0 < t -> 0 < v ->
  greek_of delta (calculate_option_greeks o s k t v rr qq) =
  if is_call o then exp (- qq * t) * norm_cdf (d1_value s k t v rr qq)
  else exp (- qq * t) * (norm_cdf (d1_value s k t v rr qq) - 1).
Proof.
  intros Hk Hs Ht Hv.
  destruct (greeks_fields s k t v rr qq Hk Hs Ht Hv o) as [g [Hg [Hd _]]].
  rewrite Hg. exact Hd.
Qed.

Local Abbreviation d1 := (d1_value spot strike T sigma r q).
Local Abbreviation d2 := (d1_value spot strike T sigma r q - total_vol T sigma).

Lemma price_spot_deriv (o : string) :
  derivable_pt_lim
    (fun u => returned (calculate_option_price o u strike T sigma r q)) spot
    (if is_call o then exp (- q * T) * norm_cdf d1
     else exp (- q * T) * (norm_cdf d1 - 1)).
Proof.
  pose proof (density_balance spot strike T sigma r q strike_pos spot_pos
                T_pos sigma_pos) as Hbal.
  assert (HA : derivable_pt_lim (fun u => u * exp (- q * T)) spot
                 (exp (- q * T))).
  { apply dlim_eq with (1 * exp (- q * T) + spot * 0); [| ring].
    apply (dl_mult (fun u => u) (fun _ => exp (- q * T)));
      [apply dl_id | apply dl_const]. }
  pose proof (dl_const (strike * exp (- r * T)) spot) as HB.
  pose proof d1_spot_deriv as HD.
  pose proof (dl_const (total_vol T sigma) spot) as HW.
  apply derivable_pt_lim_locally_ext with (a := 0) (b := spot + 1)
    (f := fun u => returned (Returns
       (if is_call o then
          u * exp (- q * T) * norm_cdf (d1_value u strike T sigma r q)
          - strike * exp (- r * T)
            * norm_cdf (d1_value u strike T sigma r q - total_vol T sigma)
        else
          strike * exp (- r * T)
          * norm_cdf (- (d1_value u strike T sigma r q - total_vol T sigma))
          - u * exp (- q * T) * norm_cdf (- d1_value u strike T sigma r q)))).
  - lra.
  - intros z [Hz _]. rewrite (price_form o z) by assumption. reflexivity.
  - simpl. destruct (is_call o).
    + eapply dlim_eq.
      * exact (call_form_deriv _ _ _ _ _ _ _ _ _ HA HB HD HW Hbal).
      * cbv beta. ring.
    + eapply dlim_eq.
      * exact (put_form_deriv _ _ _ _ _ _ _ _ _ HA HB HD HW Hbal).
      * cbv beta. rewrite !norm_cdf_sym. ring.
Qed.

Lemma delta_spot_deriv (o : string) :
  derivable_pt_lim
    (fun u => greek_of delta (calculate_option_greeks o u strike T sigma r q))
    spot
    (exp (- q * T) * norm_pdf d1 / (spot * sigma * sqrt T)).
Proof.
  pose proof d1_spot_deriv as HD.
  apply derivable_pt_lim_locally_ext with (a := 0) (b := spot + 1)
    (f := fun u =>
       exp (- q * T) * norm_cdf (d1_value u strike T sigma r q)
       - (if is_call o then 0 else exp (- q * T))).
  - lra.
  - intros z [Hz _]. rewrite (delta_form o z) by assumption.
    destruct (is_call o); ring.
  - pose proof (total_vol_pos T sigma T_pos sigma_pos) as Hv.
    unfold total_vol in Hv.
    apply dlim_eq with
      (exp (- q * T) * (norm_pdf d1 * / (spot * sigma * sqrt T)) - 0).
    + apply (dl_minus
               (fun u => exp (- q * T)
                         * norm_cdf (d1_value u strike T sigma r q))
               (fun _ => if is_call o then 0 else exp (- q * T)));
        [| apply dl_const].
      apply (derivable_pt_lim_scal
               (fun u => norm_cdf (d1_value u strike T sigma r q))).
      apply (dl_comp (fun u => d1_value u strike T sigma r q));
        [exact HD | apply norm_cdf_deriv].
    + unfold Rdiv. ring.
Qed.

Lemma price_sigma_deriv (o : string) :
  derivable_pt_lim
    (fun u => returned (calculate_option_price o spot strike T u r q)) sigma
    (spot * exp (- q * T) * norm_pdf d1 * sqrt T).
Proof.
  pose proof (density_balance spot strike T sigma r q strike_pos spot_pos
                T_pos sigma_pos) as Hbal.
  pose proof (dl_const (spot * exp (- q * T)) sigma) as HA.
  pose proof (dl_const (strike * exp (- r * T)) sigma) as HB.
  destruct d1_sigma_deriv as [l HD].
  assert (HW : derivable_pt_lim (fun u => total_vol T u) sigma (sqrt T)).
  { unfold total_vol. apply dlim_eq with (1 * sqrt T + sigma * 0); [| ring].
    apply (dl_mult (fun u => u) (fun _ => sqrt T));
      [apply dl_id | apply dl_const]. }
  apply derivable_pt_lim_locally_ext with (a := 0) (b := sigma + 1)
    (f := fun u => returned (Returns
       (if is_call o then
          spot * exp (- q * T) * norm_cdf (d1_value spot strike T u r q)
          - strike * exp (- r * T)
            * norm_cdf (d1_value spot strike T u r q - total_vol T u)
        else
          strike * exp (- r * T)
          * norm_cdf (- (d1_value spot strike T u r q - total_vol T u))
          - spot * exp (- q * T) * norm_cdf (- d1_value spot strike T u r q)))).
  - lra.
  - intros z [Hz _]. rewrite (price_form o spot strike T z) by assumption.
    reflexivity.
  - simpl. destruct (is_call o).
    + eapply dlim_eq.
      * exact (call_form_deriv _ _ _ _ _ _ _ _ _ HA HB HD HW Hbal).
      * cbv beta. rewrite Hbal. ring.
    + eapply dlim_eq.
      * exact (put_form_deriv _ _ _ _ _ _ _ _ _ HA HB HD HW Hbal).
      * cbv beta. rewrite Hbal. ring.
Qed.

Lemma price_rate_deriv (o : string) :
  derivable_pt_lim
    (fun u => returned (calculate_option_price o spot strike T sigma u q)) r
    (if is_call o then strike * T * exp (- r * T) * norm_cdf d2
     else - (strike * T * exp (- r * T) * norm_cdf (- d2))).
Proof.
  pose proof (density_balance spot strike T sigma r q strike_pos spot_pos
                T_pos sigma_pos) as Hbal.
  pose proof (dl_const (spot * exp (- q * T)) r) as HA.
  assert (HB : derivable_pt_lim (fun u => strike * exp (- u * T)) r
                 (- T * (strike * exp (- r * T)))).
  { eapply dlim_eq; [repeat dl_step | cbv beta; ring]. }
  destruct d1_rate_deriv as [l HD].
  pose proof (dl_const (total_vol T sigma) r) as HW.
  apply derivable_pt_lim_locally_ext with (a := r - 1) (b := r + 1)
    (f := fun u => returned (Returns
       (if is_call o then
          spot * exp (- q * T) * norm_cdf (d1_value spot strike T sigma u q)
          - strike * exp (- u * T)
            * norm_cdf (d1_value spot strike T sigma u q - total_vol T sigma)
        else
          strike * exp (- u * T)
          * norm_cdf (- (d1_value spot strike T sigma u q - total_vol T sigma))
          - spot * exp (- q * T)
            * norm_cdf (- d1_value spot strike T sigma u q)))).
  - lra.
  - intros z _. rewrite (price_form o spot strike T sigma z) by assumption.
    reflexivity.
  - simpl. destruct (is_call o).
    + eapply dlim_eq.
      * exact (call_form_deriv _ _ _ _ _ _ _ _ _ HA HB HD HW Hbal).
      * cbv beta. ring.
    + eapply dlim_eq.
      * exact (put_form_deriv _ _ _ _ _ _ _ _ _ HA HB HD HW Hbal).
      * cbv beta. ring.
Qed.

Lemma price_time_deriv (o : string) :
  derivable_pt_lim
    (fun u => returned (calculate_option_price o spot strike u sigma r q)) T
    (if is_call o then
       exp (- q * T) * spot * norm_pdf d1 * sigma / (2 * sqrt T)
       + r * strike * exp (- r * T) * norm_cdf d2
       - q * spot * exp (- q * T) * norm_cdf d1
     else
       exp (- q * T) * spot * norm_pdf d1 * sigma / (2 * sqrt T)
       - r * strike * exp (- r * T) * norm_cdf (- d2)
       + q * spot * exp (- q * T) * norm_cdf (- d1)).
Proof.
  pose proof (density_balance spot strike T sigma r q strike_pos spot_pos
                T_pos sigma_pos) as Hbal.
  assert (HA : derivable_pt_lim (fun u => spot * exp (- q * u)) T
                 (- q * (spot * exp (- q * T)))).
  { eapply dlim_eq; [repeat dl_step | cbv beta; ring]. }
  assert (HB : derivable_pt_lim (fun u => strike * exp (- r * u)) T
                 (- r * (strike * exp (- r * T)))).
  { eapply dlim_eq; [repeat dl_step | cbv beta; ring]. }
  destruct d1_time_deriv as [l HD].
  pose proof total_vol_time_deriv as HW.
  apply derivable_pt_lim_locally_ext with (a := 0) (b := T + 1)
    (f := fun u => returned (Returns
       (if is_call o then
          spot * exp (- q * u) * norm_cdf (d1_value spot strike u sigma r q)
          - strike * exp (- r * u)
            * norm_cdf (d1_value spot strike u sigma r q - total_vol u sigma)
        else
          strike * exp (- r * u)
          * norm_cdf (- (d1_value spot strike u sigma r q - total_vol u sigma))
          - spot * exp (- q * u)
            * norm_cdf (- d1_value spot strike u sigma r q)))).
  - lra.
  - intros z [Hz _]. rewrite (price_form o spot strike z) by assumption.
    reflexivity.
  - pose proof (sqrt_T_pos T T_pos) as Hsq.
    simpl. destruct (is_call o).
    + eapply dlim_eq.
      * exact (call_form_deriv _ _ _ _ _ _ _ _ _ HA HB HD HW Hbal).
      * cbv beta. unfold total_vol in *. rewrite <- Hbal. field. lra.
    + eapply dlim_eq.
      * exact (put_form_deriv _ _ _ _ _ _ _ _ _ HA HB HD HW Hbal).
      * cbv beta. unfold total_vol in *. rewrite <- Hbal. field. lra.
Qed.

End PartialDerivatives.

(** X6. Delta is the rate of change of the price with respect to the
    underlying price: on valid inputs with time left and for every option
    type, the price as a function of the spot has derivative [delta] at the
    spot. *)
Theorem delta_is_spot_sensitivity (o : string) (spot strike T sigma r q : R) :
  0 < strike -> 0 < spot -> 0 < T -> 0 < sigma ->
  exists g,
    calculate_option_greeks o spot strike T sigma r q = Returns g
    /\ derivable_pt_lim
         (fun s => returned (calculate_option_price o s strike T sigma r q))
         spot (delta g).
Proof.
  intros HK HS HT Hs.
  destruct (greeks_fields spot strike T sigma r q HK HS HT Hs o)
    as [g [Hg [Hd _]]].
  exists g. split; [exact Hg |]. rewrite Hd.
  apply price_spot_deriv; assumption.
Qed.

Lemma delta_is_spot_sensitivity_witness :
  exists g,
    calculate_option_greeks "call" 100 100 1 0.3 0.025 0 = Returns g
    /\ derivable_pt_lim
         (fun s => returned (calculate_option_price "call" s 100 1 0.3 0.025 0))
         100 (delta g).
Proof. apply delta_is_spot_sensitivity; lra. Defined.

(** X7. Gamma is the rate of change of delta with respect to the underlying
    price: on valid inputs with time left and for every option type, delta
    as a function of the spot has derivative [gamma] at the spot. *)
Theorem gamma_is_delta_sensitivity (o : string) (spot strike T sigma r q : R) :
  0 < strike -> 0 < spot -> 0 < T -> 0 < sigma ->
  exists g,
    calculate_option_greeks o spot strike T sigma r q = Returns g
    /\ derivable_pt_lim
         (fun s => greek_of delta
                     (calculate_option_greeks o s strike T sigma r q))
         spot (gamma g).
Proof.
  intros HK HS HT Hs.
  destruct (greeks_fields spot strike T sigma r q HK HS HT Hs o)
    as [g [Hg [_ [Hgam _]]]].
  exists g. split; [exact Hg |]. rewrite Hgam.
  apply delta_spot_deriv; assumption.
Qed.

Lemma gamma_is_delta_sensitivity_witness :
  exists g,
    calculate_option_greeks "put" 100 100 1 0.3 0.025 0 = Returns g
    /\ derivable_pt_lim
         (fun s => greek_of delta
                     (calculate_option_greeks "put" s 100 1 0.3 0.025 0))
         100 (gamma g).
Proof. apply gamma_is_delta_sensitivity; lra. Defined.

(** X8. Vega is the change of the price for one percentage point of
    volatility: on valid inputs with time left and for every option type,
    the price as a function of the volatility has derivative [100 * vega]. *)
Theorem vega_is_volatility_sensitivity (o : string)
    (spot strike T sigma r q : R) :
  0 < strike -> 0 < spot -> 0 < T -> 0 < sigma ->
  exists g,
    calculate_option_greeks o spot strike T sigma r q = Returns g
    /\ derivable_pt_lim
         (fun v => returned (calculate_option_price o spot strike T v r q))
         sigma (100 * vega g).
Proof.
  intros HK HS HT Hs.
  destruct (greeks_fields spot strike T sigma r q HK HS HT Hs o)
    as [g [Hg [_ [_ [Hv _]]]]].
  exists g. split; [exact Hg |]. rewrite Hv.
  eapply dlim_eq; [apply price_sigma_deriv; assumption | lra].
Qed.

Lemma vega_is_volatility_sensitivity_witness :
  exists g,
    calculate_option_greeks "call" 100 100 1 0.3 0.025 0 = Returns g
    /\ derivable_pt_lim
         (fun v => returned (calculate_option_price "call" 100 100 1 v 0.025 0))
         0.3 (100 * vega g).
Proof. apply vega_is_volatility_sensitivity; lra. Defined.

(** X9. Rho is the change of the price for one percentage point of interest
    rate: on valid inputs with time left and for every option type, the
    price as a function of the risk-free rate has derivative [100 * rho]. *)
Theorem rho_is_rate_sensitivity (o : string) (spot strike T sigma r q : R) :
  0 < strike -> 0 < spot -> 0 < T -> 0 < sigma ->
  exists g,
    calculate_option_greeks o spot strike T sigma r q = Returns g
    /\ derivable_pt_lim
         (fun u => returned (calculate_option_price o spot strike T sigma u q))
         r (100 * rho g).
Proof.
  intros HK HS HT Hs.
  destruct (greeks_fields spot strike T sigma r q HK HS HT Hs o)
    as [g [Hg [_ [_ [_ [_ Hr]]]]]].
  exists g. split; [exact Hg |]. rewrite Hr.
  eapply dlim_eq; [apply price_rate_deriv; assumption |].
  destruct (is_call o); lra.
Qed.

Lemma rho_is_rate_sensitivity_witness :
  exists g,
    calculate_option_greeks "put" 100 100 1 0.3 0.025 0 = Returns g
    /\ derivable_pt_lim
         (fun u => returned (calculate_option_price "put" 100 100 1 0.3 u 0))
         0.025 (100 * rho g).
Proof. apply rho_is_rate_sensitivity; lra. Defined.

(** X10. Theta is the daily time decay: on valid inputs with time left and
    for every option type, the price as a function of the time to expiry
    (in years) has derivative [- 365 * theta]. *)
Theorem theta_is_time_decay (o : string) (spot strike T sigma r q : R) :
  0 < strike -> 0 < spot -> 0 < T -> 0 < sigma ->
  exists g,
    calculate_option_greeks o spot strike T sigma r q = Returns g
    /\ derivable_pt_lim
         (fun t => returned (calculate_option_price o spot strike t sigma r q))
         T (- 365 * theta g).
Proof.
  intros HK HS HT Hs.
  destruct (greeks_fields spot strike T sigma r q HK HS HT Hs o)
    as [g [Hg [_ [_ [_ [Ht _]]]]]].
  exists g. split; [exact Hg |]. rewrite Ht.
  eapply dlim_eq; [apply price_time_deriv; assumption |].
  destruct (is_call o); lra.
Qed.

Lemma theta_is_time_decay_witness :
  exists g,
    calculate_option_greeks "call" 100 100 1 0.3 0.025 0 = Returns g
    /\ derivable_pt_lim
         (fun t => returned (calculate_option_price "call" 100 100 t 0.3 0.025 0))
         1 (- 365 * theta g).
Proof. apply theta_is_time_decay; lra. Defined.

(** X22. Time decay: on valid inputs with time left, the theta of a call
    is never positive when the dividend yield is zero and the rate is not
    negative, and neither is the theta of a put when the rate is zero and
    the dividend yield is not negative. *)
Theorem theta_nonpositive (spot strike T sigma r q : R) :
  0 < strike -> 0 < spot -> 0 < T -> 0 < sigma ->
  (q = 0 -> 0 <= r ->
     exists g, calculate_option_greeks "call" spot strike T sigma r q = Returns g
               /\ theta g <= 0)
  /\ (r = 0 -> 0 <= q ->
     exists g, calculate_option_greeks "put" spot strike T sigma r q = Returns g
               /\ theta g <= 0).
Proof.
  intros HK HS HT Hs.
  pose proof (sqrt_T_pos T HT) as Hsq.
  pose proof (norm_pdf_pos (d1_value spot strike T sigma r q)) as Hn.
  pose proof (exp_pos (- q * T)) as Heq. pose proof (exp_pos (- r * T)) as Her.
  assert (Hdecay : 0 <= exp (- q * T) * spot
                        * norm_pdf (d1_value spot strike T sigma r q) * sigma
                        / (2 * sqrt T)).
  { apply Rmult_le_pos; [| apply Rlt_le, Rinv_0_lt_compat; lra].
    apply Rmult_le_pos; [| lra].
    apply Rmult_le_pos; [| lra].
    apply Rmult_le_pos; lra. }
  split.
  - intros Hq Hr.
    destruct (greeks_fields spot strike T sigma r q HK HS HT Hs "call")
      as [g [Hg [_ [_ [_ [Ht _]]]]]].
    exists g. split; [exact Hg |]. rewrite Ht. simpl.
    pose proof (norm_cdf_bounds
                  (d1_value spot strike T sigma r q - total_vol T sigma))
      as [Hc _].
    assert (0 <= r * strike * exp (- r * T)
                 * norm_cdf (d1_value spot strike T sigma r q
                             - total_vol T sigma))
      by (repeat apply Rmult_le_pos; lra).
    subst q. unfold Rdiv in *. lra.
  - intros Hr Hq.
    destruct (greeks_fields spot strike T sigma r q HK HS HT Hs "put")
      as [g [Hg [_ [_ [_ [Ht _]]]]]].
    exists g. split; [exact Hg |]. rewrite Ht. simpl.
    pose proof (norm_cdf_bounds (- d1_value spot strike T sigma r q)) as [Hc _].
    assert (0 <= q * spot * exp (- q * T)
                 * norm_cdf (- d1_value spot strike T sigma r q))
      by (repeat apply Rmult_le_pos; lra).
    subst r. unfold Rdiv in *. lra.
Qed.

Lemma theta_nonpositive_witness :
  (exists g, calculate_option_greeks "call" 100 100 1 0.3 0 0 = Returns g
             /\ theta g <= 0)
  /\ (exists g, calculate_option_greeks "put" 100 100 1 0.3 0 0 = Returns g
              /\ theta g <= 0).
Proof.
  destruct (theta_nonpositive 100 100 1 0.3 0 0) as [Hc Hp]; try lra.
  split; [apply Hc | apply Hp]; lra.
Defined.

(** * Beyond the claims: edge behaviour of the engine *)

(** X11. A strike of zero: with time left, [calculate_option_price] and
    [calculate_option_greeks] both raise [ZeroDivisionError], for every
    option type and whatever the spot, volatility, rate and dividend yield
    ([spot / strike] is the first operation of [d1]); [is_itm_atm_otm]
    raises it too, whatever the spot and the threshold. *)
Theorem zero_strike_raises_everywhere (o : string)
    (spot T sigma r q threshold : R) :
  0 < T ->
  calculate_option_price o spot 0 T sigma r q = ZeroDivisionError
  /\ calculate_option_greeks o spot 0 T sigma r q = ZeroDivisionError
  /\ is_itm_atm_otm o spot 0 threshold = ZeroDivisionError.
Proof.
  intros HT.
  unfold calculate_option_price, calculate_option_greeks, is_itm_atm_otm.
  destruct (Rle_dec T 0); [lra |].
  unfold d1_expr, py_div, bind.
  destruct (Req_EM_T 0 0); [| lra].
  repeat split.
Qed.

Lemma zero_strike_raises_everywhere_witness :
  calculate_option_price "call" 100 0 1 0.3 0.025 0 = ZeroDivisionError
  /\ calculate_option_greeks "call" 100 0 1 0.3 0.025 0 = ZeroDivisionError
  /\ is_itm_atm_otm "call" 100 0 0.01 = ZeroDivisionError.
Proof. apply zero_strike_raises_everywhere. lra. Defined.

(** * app.py: what the page computes from its widgets *)

From Stdlib Require Import List ZArith Ascii Lia.
Import ListNotations.

(** [str.lower] on ASCII text, which is all the option-type selector
    offers. *)
Definition lower_ascii (c : ascii) : ascii :=
  let n := N_of_ascii c in
  if andb (65 <=? n)%N (n <=? 90)%N then ascii_of_N (n + 32) else c.

Fixpoint lower (s : string) : string :=
  match s with
  | EmptyString => EmptyString
  | String c s' => String (lower_ascii c) (lower s')
  end.

(** Python's [min(a, b)] on two integers: the first unless the second is
    smaller. *)
Definition py_min (a b : Z) : Z := if (b <? a)%Z then b else a.

(** [np.linspace(start, stop, num)] for [num >= 2]: [num] evenly spaced
    samples, both ends included. *)
Definition linspace (start stop : R) (num : nat) : list R :=
  let step := (stop - start) / INR (num - 1) in
  map (fun i => INR i * step + start) (seq 0 num).

(** A [for] loop that appends one result per element and stops at the first
    exception. *)
Fixpoint for_each {A B : Type} (body : A -> outcome B) (l : list A)
    : outcome (list B) :=
  match l with
  | [] => Returns []
  | x :: l' => y <- body x ;; ys <- for_each body l' ;; Returns (y :: ys)
  end.

(** What the page shows above the charts. *)
Record summary : Type := mk_summary {
  shown_greeks : greeks;
  shown_price : R;
  shown_moneyness : moneyness;
  shown_intrinsic_value : R;
  shown_time_value : R
}.

Section Page.

(** The values of the seven widgets. *)
Variable option_type : string.
Variables spot_price strike_price : R.
Variable days_to_expiry : Z.
Variables volatility risk_free_rate dividend_yield : R.

Definition time_to_expiry : R := IZR days_to_expiry / 365.
Definition volatility_decimal : R := volatility / 100.
Definition risk_free_rate_decimal : R := risk_free_rate / 100.
Definition dividend_yield_decimal : R := dividend_yield / 100.

Definition intrinsic_value : R :=
  py_max 0 (if String.eqb (lower option_type) "call"
            then spot_price - strike_price else strike_price - spot_price).

(** The script up to the charts: the Greeks, the price, the moneyness (with
    the default threshold of 1%), the intrinsic value and the time value. *)
Definition analysis : outcome summary :=
  greeks <- calculate_option_greeks (lower option_type) spot_price strike_price
              time_to_expiry volatility_decimal risk_free_rate_decimal
              dividend_yield_decimal ;;
  option_price <- calculate_option_price (lower option_type) spot_price
              strike_price time_to_expiry volatility_decimal
              risk_free_rate_decimal dividend_yield_decimal ;;
  moneyness <- is_itm_atm_otm (lower option_type) spot_price strike_price 0.01 ;;
  let time_value := option_price - intrinsic_value in
  Returns (mk_summary greeks option_price moneyness intrinsic_value time_value).

(** The four sweeps.  The swept argument is a numpy float there, so a zero
    strike would give [inf] where [py_div] raises; the strike widget never
    gives zero. *)
Definition spot_range : list R :=
  linspace (spot_price * 0.7) (spot_price * 1.3) 100.

Definition price_vs_underlying : outcome (list (R * R)) :=
  for_each
    (fun spot =>
       call_price <- calculate_option_price "call" spot strike_price
                       time_to_expiry volatility_decimal
                       risk_free_rate_decimal dividend_yield_decimal ;;
       put_price <- calculate_option_price "put" spot strike_price
                       time_to_expiry volatility_decimal
                       risk_free_rate_decimal dividend_yield_decimal ;;
       Returns (call_price, put_price))
    spot_range.

Definition greeks_vs_underlying : outcome (list greeks) :=
  for_each
    (fun spot =>
       calculate_option_greeks (lower option_type) spot strike_price
         time_to_expiry volatility_decimal risk_free_rate_decimal
         dividend_yield_decimal)
    spot_range.

Definition vol_range : list R :=
  linspace (py_max 0.05 (volatility_decimal * 0.5)) (volatility_decimal * 1.5)
    100.

Definition greeks_vs_volatility : outcome (list greeks) :=
  for_each
    (fun vol =>
       calculate_option_greeks (lower option_type) spot_price strike_price
         time_to_expiry vol risk_free_rate_decimal dividend_yield_decimal)
    vol_range.

Definition days_range : list R :=
  linspace 1 (IZR (py_min 365 (days_to_expiry * 2))) 100.

Definition time_range : list R := map (fun d => d / 365) days_range.

Definition greeks_vs_time : outcome (list greeks) :=
  for_each
    (fun t =>
       calculate_option_greeks (lower option_type) spot_price strike_price
         t volatility_decimal risk_free_rate_decimal dividend_yield_decimal)
    time_range.

(** The bounds the widgets enforce. *)
Definition widgets_in_range : Prop :=
  (option_type = "Call" \/ option_type = "Put")
  /\ 1 <= spot_price <= 10000
  /\ 1 <= strike_price <= 10000
  /\ (1 <= days_to_expiry <= 1000)%Z
  /\ 1 <= volatility <= 200
  /\ 0 <= risk_free_rate <= 10
  /\ 0 <= dividend_yield <= 10.

End Page.

(** ** Samples and loops *)

Lemma lower_Call : lower "Call" = "call".
Proof. reflexivity. Qed.

Lemma lower_Put : lower "Put" = "put".
Proof. reflexivity. Qed.

Lemma linspace_length (a b : R) (n : nat) : List.length (linspace a b n) = n.
Proof. unfold linspace. rewrite length_map, length_seq. reflexivity. Qed.

Lemma linspace_nth (a b d : R) (n i : nat) :
  (i < n)%nat ->
  nth i (linspace a b n) d = INR i * ((b - a) / INR (n - 1)) + a.
Proof.
  intros Hi. unfold linspace.
  set (f := fun i : nat => INR i * ((b - a) / INR (n - 1)) + a).
  transitivity (nth i (map f (seq 0 n)) (f O)).
  - apply nth_indep. rewrite length_map, length_seq. exact Hi.
  - rewrite map_nth, seq_nth by exact Hi. reflexivity.
Qed.

(** Every sample is a mean of the two ends. *)
Lemma linspace_nth_mean (a b d : R) (n i : nat) :
  (2 <= n)%nat -> (i < n)%nat ->
  exists t, 0 <= t <= 1 /\ nth i (linspace a b n) d = (1 - t) * a + t * b
            /\ t = INR i / INR (n - 1).
Proof.
  intros Hn Hi. exists (INR i / INR (n - 1)).
  assert (Hpos : 0 < INR (n - 1)) by (apply lt_0_INR; lia).
  assert (Hle : INR i <= INR (n - 1)) by (apply le_INR; lia).
  pose proof (pos_INR i) as H0.
  split; [| split; [| reflexivity]].
  - split.
    + apply Rmult_le_pos; [exact H0 | apply Rlt_le, Rinv_0_lt_compat, Hpos].
    + apply Rmult_le_reg_r with (INR (n - 1)); [exact Hpos |].
      unfold Rdiv. rewrite Rmult_assoc, Rinv_l by lra. lra.
  - rewrite linspace_nth by exact Hi. field. lra.
Qed.

Lemma linspace_nth_between (a b d lo hi : R) (n i : nat) :
  (2 <= n)%nat -> (i < n)%nat -> lo <= a <= hi -> lo <= b <= hi ->
  lo <= nth i (linspace a b n) d <= hi.
Proof.
  intros Hn Hi Ha Hb.
  destruct (linspace_nth_mean a b d n i Hn Hi) as [t [Ht [-> _]]]. nra.
Qed.

Lemma linspace_nth_mono (a b d : R) (n i j : nat) :
  a <= b -> (i <= j)%nat -> (j < n)%nat ->
  nth i (linspace a b n) d <= nth j (linspace a b n) d.
Proof.
  intros Hab Hij Hj. rewrite !linspace_nth by lia.
  assert (Hs : 0 <= (b - a) / INR (n - 1)).
  { apply Rmult_le_pos; [lra |]. destruct (Nat.eq_dec (n - 1) 0) as [-> | Hn].
    - simpl. rewrite Rinv_0. lra.
    - apply Rlt_le, Rinv_0_lt_compat, lt_0_INR. lia. }
  apply le_INR in Hij. nra.
Qed.

Lemma for_each_returns {A B : Type} (body : A -> outcome B) (l : list A) :
  (forall x, In x l -> exists y, body x = Returns y) ->
  exists ys, for_each body l = Returns ys
    /\ List.length ys = List.length l
    /\ forall i dA dB, (i < List.length l)%nat ->
         body (nth i l dA) = Returns (nth i ys dB).
Proof.
  induction l as [| x l IH]; intros Hall.
  - exists []. simpl. repeat split. intros i dA dB Hi. lia.
  - destruct (Hall x (or_introl eq_refl)) as [y Hy].
    destruct IH as [ys [Hys [Hlen Hnth]]];
      [intros z Hz; apply Hall; right; exact Hz |].
    exists (y :: ys). simpl. rewrite Hy, Hys. simpl.
    repeat split; [lia |].
    intros [| i] dA dB Hi; [exact Hy | apply Hnth; lia].
Qed.

Lemma in_linspace (a b x : R) (n : nat) :
  In x (linspace a b n) -> exists i, (i < n)%nat /\ x = nth i (linspace a b n) 0.
Proof.
  intros Hx. destruct (In_nth _ _ 0 Hx) as [i [Hi Hn]].
  rewrite linspace_length in Hi. exists i. split; [exact Hi | symmetry; exact Hn].
Qed.

(** ** The widgets keep the engine inside its domain *)

Section PageValid.

Variable option_type : string.
Variables spot_price strike_price : R.
Variable days_to_expiry : Z.
Variables volatility risk_free_rate dividend_yield : R.
Hypothesis in_range :
  widgets_in_range option_type spot_price strike_price days_to_expiry
    volatility risk_free_rate dividend_yield.

Lemma page_spot_pos : 0 < spot_price.
Proof. destruct in_range as [_ [H _]]. lra. Qed.

Lemma page_strike_pos : 0 < strike_price.
Proof. destruct in_range as [_ [_ [H _]]]. lra. Qed.

Lemma page_days : 1 <= IZR days_to_expiry <= 1000.
Proof.
  destruct in_range as [_ [_ [_ [[H1 H2] _]]]].
  split; [apply (IZR_le 1), H1 | apply (IZR_le _ 1000), H2].
Qed.

Lemma page_time_pos : 0 < time_to_expiry days_to_expiry.
Proof. unfold time_to_expiry. pose proof page_days. lra. Qed.

Lemma page_vol_pos : 0 < volatility_decimal volatility.
Proof.
  unfold volatility_decimal. destruct in_range as [_ [_ [_ [_ [H _]]]]]. lra.
Qed.

Lemma page_type : lower option_type = "call" \/ lower option_type = "put".
Proof.
  destruct in_range as [[-> | ->] _]; [left | right]; reflexivity.
Qed.

Lemma spot_range_pos (x : R) : In x (spot_range spot_price) -> 0 < x.
Proof.
  intros Hx. destruct (in_linspace _ _ _ _ Hx) as [i [Hi ->]].
  pose proof page_spot_pos.
  pose proof (linspace_nth_between (spot_price * 0.7) (spot_price * 1.3) 0
                (spot_price * 0.7) (spot_price * 1.3) 100 i
                ltac:(lia) Hi ltac:(lra) ltac:(lra)).
  lra.
Qed.

Lemma vol_range_pos (x : R) : In x (vol_range volatility) -> 0 < x.
Proof.
  intros Hx. destruct (in_linspace _ _ _ _ Hx) as [i [Hi ->]].
  pose proof page_vol_pos as Hv.
  set (v := volatility_decimal volatility) in *.
  assert (Hm : 0.05 <= py_max 0.05 (v * 0.5)
               /\ (py_max 0.05 (v * 0.5) = 0.05
                   \/ py_max 0.05 (v * 0.5) = v * 0.5)).
  { unfold py_max. destruct (Rlt_dec 0.05 (v * 0.5)); split; auto; lra. }
  destruct Hm as [Hm1 Hm2].
  pose proof (linspace_nth_between (py_max 0.05 (v * 0.5)) (v * 1.5) 0
                (Rmin 0.05 (v * 1.5)) (Rmax (py_max 0.05 (v * 0.5)) (v * 1.5))
                100 i ltac:(lia) Hi) as Hb.
  assert (H1 : Rmin 0.05 (v * 1.5) <= py_max 0.05 (v * 0.5)
               <= Rmax (py_max 0.05 (v * 0.5)) (v * 1.5))
    by (split; [pose proof (Rmin_l 0.05 (v * 1.5)); lra | apply Rmax_l]).
  assert (H2 : Rmin 0.05 (v * 1.5) <= v * 1.5
               <= Rmax (py_max 0.05 (v * 0.5)) (v * 1.5))
    by (split; [apply Rmin_r | apply Rmax_r]).
  specialize (Hb H1 H2).
  assert (0 < Rmin 0.05 (v * 1.5)) by (apply Rmin_glb_lt; lra).
  fold v. lra.
Qed.

Lemma page_days_stop : 2 <= IZR (py_min 365 (days_to_expiry * 2)) <= 365.
Proof.
  destruct in_range as [_ [_ [_ [[H1 H2] _]]]].
  unfold py_min. destruct (Z.ltb_spec (days_to_expiry * 2) 365).
  - split; [apply (IZR_le 2); lia | apply (IZR_le _ 365); lia].
  - lra.
Qed.

Lemma days_range_between (i : nat) :
  (i < 100)%nat -> 1 <= nth i (days_range days_to_expiry) 0 <= 365.
Proof.
  intros Hi. pose proof page_days_stop.
  apply linspace_nth_between; [lia | exact Hi | lra | lra].
Qed.

Lemma time_range_pos (x : R) : In x (time_range days_to_expiry) -> 0 < x.
Proof.
  intros Hx. unfold time_range in Hx. apply in_map_iff in Hx.
  destruct Hx as [d [<- Hd]]. destruct (in_linspace _ _ _ _ Hd) as [i [Hi ->]].
  pose proof (days_range_between i Hi) as Hb. unfold days_range in Hb. lra.
Qed.

End PageValid.

(** Delta as a function of the spot, on valid inputs. *)
Lemma delta_spot_mono (o : string) (s1 s2 strike T sigma r q : R) :
  0 < strike -> 0 < T -> 0 < sigma -> 0 < s1 -> s1 <= s2 ->
  greek_of delta (calculate_option_greeks o s1 strike T sigma r q)
    <= greek_of delta (calculate_option_greeks o s2 strike T sigma r q).
Proof.
  intros HK HT Hs H1 H12. assert (H2 : 0 < s2) by lra.
  rewrite !delta_form by assumption.
  pose proof (d1_value_mono s1 s2 strike T sigma r q HK HT Hs (conj H1 H12))
    as Hd.
  apply norm_cdf_mono in Hd. pose proof (exp_pos (- q * T)).
  destruct (is_call o); nra.
Qed.

Section PageTheorems.

Variable option_type : string.
Variables spot_price strike_price : R.
Variable days_to_expiry : Z.
Variables volatility risk_free_rate dividend_yield : R.
Hypothesis in_range :
  widgets_in_range option_type spot_price strike_price days_to_expiry
    volatility risk_free_rate dividend_yield.

Local Abbreviation T := (time_to_expiry days_to_expiry).
Local Abbreviation sigma := (volatility_decimal volatility).
Local Abbreviation r := (risk_free_rate_decimal risk_free_rate).
Local Abbreviation q := (dividend_yield_decimal dividend_yield).

(** X13. Whatever the widgets allow, the page never fails: the Greeks, the
    price and the moneyness are returned, and each of the four sweeps
    returns its 100 results, with no exception and no non-finite
    intermediate value. *)
Theorem page_never_fails :
  (exists s, analysis option_type spot_price strike_price days_to_expiry
               volatility risk_free_rate dividend_yield = Returns s)
  /\ (exists l, price_vs_underlying spot_price strike_price days_to_expiry
                  volatility risk_free_rate dividend_yield = Returns l
                /\ List.length l = 100%nat)
  /\ (exists l, greeks_vs_underlying option_type spot_price strike_price
                  days_to_expiry volatility risk_free_rate dividend_yield
                = Returns l /\ List.length l = 100%nat)
  /\ (exists l, greeks_vs_volatility option_type spot_price strike_price
                  days_to_expiry volatility risk_free_rate dividend_yield
                = Returns l /\ List.length l = 100%nat)
  /\ (exists l, greeks_vs_time option_type spot_price strike_price
                  days_to_expiry volatility risk_free_rate dividend_yield
                = Returns l /\ List.length l = 100%nat).
Proof.
  pose proof (page_spot_pos _ _ _ _ _ _ _ in_range) as HS.
  pose proof (page_strike_pos _ _ _ _ _ _ _ in_range) as HK.
  pose proof (page_time_pos _ _ _ _ _ _ _ in_range) as HT.
  pose proof (page_vol_pos _ _ _ _ _ _ _ in_range) as Hv.
  split; [| split; [| split; [| split]]].
  - unfold analysis.
    destruct (greeks_return spot_price strike_price T sigma r q HK HS HT Hv
                (lower option_type)) as [g [Hg _]].
    rewrite Hg, price_returns by assumption. unfold bind at 1 2.
    unfold is_itm_atm_otm, py_div, bind.
    destruct (Req_EM_T strike_price 0); [lra |].
    destruct (Rle_dec _ 0.01); [eexists; reflexivity |].
    destruct (is_call (lower option_type)); eexists; reflexivity.
  - unfold price_vs_underlying.
    match goal with |- context [for_each ?b ?l] =>
      destruct (for_each_returns b l) as [ys [Hl [Hlen _]]] end.
    + intros x Hx. apply (spot_range_pos _ _ _ _ _ _ _ in_range) in Hx.
      rewrite !price_returns by assumption. simpl. eexists. reflexivity.
    + exists ys. split; [exact Hl |]. rewrite Hlen. apply linspace_length.
  - unfold greeks_vs_underlying.
    match goal with |- context [for_each ?b ?l] =>
      destruct (for_each_returns b l) as [ys [Hl [Hlen _]]] end.
    + intros x Hx. apply (spot_range_pos _ _ _ _ _ _ _ in_range) in Hx.
      destruct (greeks_return x strike_price T sigma r q HK Hx HT Hv
                  (lower option_type)) as [g [Hg _]].
      exists g. exact Hg.
    + exists ys. split; [exact Hl |]. rewrite Hlen. apply linspace_length.
  - unfold greeks_vs_volatility.
    match goal with |- context [for_each ?b ?l] =>
      destruct (for_each_returns b l) as [ys [Hl [Hlen _]]] end.
    + intros x Hx. apply (vol_range_pos _ _ _ _ _ _ _ in_range) in Hx.
      destruct (greeks_return spot_price strike_price T x r q HK HS HT Hx
                  (lower option_type)) as [g [Hg _]].
      exists g. exact Hg.
    + exists ys. split; [exact Hl |]. rewrite Hlen. apply linspace_length.
  - unfold greeks_vs_time.
    match goal with |- context [for_each ?b ?l] =>
      destruct (for_each_returns b l) as [ys [Hl [Hlen _]]] end.
    + intros x Hx. apply (time_range_pos _ _ _ _ _ _ _ in_range) in Hx.
      destruct (greeks_return spot_price strike_price x sigma r q HK HS Hx Hv
                  (lower option_type)) as [g [Hg _]].
      exists g. exact Hg.
    + exists ys. split; [exact Hl |]. rewrite Hlen.
      unfold time_range. rewrite length_map. apply linspace_length.
Qed.

Lemma analysis_fields :
  exists s,
    analysis option_type spot_price strike_price days_to_expiry volatility
      risk_free_rate dividend_yield = Returns s
    /\ calculate_option_price (lower option_type) spot_price strike_price
         T sigma r q = Returns (shown_price s)
    /\ is_itm_atm_otm (lower option_type) spot_price strike_price 0.01
       = Returns (shown_moneyness s)
    /\ shown_intrinsic_value s
       = intrinsic_value option_type spot_price strike_price
    /\ shown_time_value s = shown_price s - shown_intrinsic_value s.
Proof.
  pose proof (page_spot_pos _ _ _ _ _ _ _ in_range) as HS.
  pose proof (page_strike_pos _ _ _ _ _ _ _ in_range) as HK.
  pose proof (page_time_pos _ _ _ _ _ _ _ in_range) as HT.
  pose proof (page_vol_pos _ _ _ _ _ _ _ in_range) as Hv.
  unfold analysis.
  destruct (greeks_return spot_price strike_price T sigma r q HK HS HT Hv
              (lower option_type)) as [g [Hg _]].
  rewrite Hg, price_returns by assumption. unfold bind at 1 2.
  destruct (is_itm_atm_otm (lower option_type) spot_price strike_price 0.01)
    as [m | |] eqn:Hm.
  - eexists. split; [reflexivity |]. simpl. repeat split; reflexivity.
  - exfalso. unfold is_itm_atm_otm, py_div, bind in Hm.
    destruct (Req_EM_T strike_price 0); [lra |].
    destruct (Rle_dec _ 0.01); [discriminate |].
    destruct (is_call (lower option_type)); discriminate.
  - exfalso. unfold is_itm_atm_otm, py_div, bind in Hm.
    destruct (Req_EM_T strike_price 0); [lra |].
    destruct (Rle_dec _ 0.01); [discriminate |].
    destruct (is_call (lower option_type)); discriminate.
Qed.

(** X15. Along the spot sweep of the second chart, delta never decreases,
    for a call and for a put alike. *)
Theorem delta_sweep_monotone :
  exists l,
    greeks_vs_underlying option_type spot_price strike_price days_to_expiry
      volatility risk_free_rate dividend_yield = Returns l
    /\ forall i j d, (i <= j)%nat -> (j < 100)%nat ->
         delta (nth i l d) <= delta (nth j l d).
Proof.
  pose proof (page_spot_pos _ _ _ _ _ _ _ in_range) as HS.
  pose proof (page_strike_pos _ _ _ _ _ _ _ in_range) as HK.
  pose proof (page_time_pos _ _ _ _ _ _ _ in_range) as HT.
  pose proof (page_vol_pos _ _ _ _ _ _ _ in_range) as Hv.
  unfold greeks_vs_underlying.
  match goal with |- context [for_each ?b ?l] =>
    destruct (for_each_returns b l) as [ys [Hl [Hlen Hnth]]] end.
  { intros x Hx. apply (spot_range_pos _ _ _ _ _ _ _ in_range) in Hx.
    destruct (greeks_return x strike_price T sigma r q HK Hx HT Hv
                (lower option_type)) as [g [Hg _]].
    exists g. exact Hg. }
  exists ys. split; [exact Hl |]. intros i j d Hij Hj.
  unfold spot_range in Hnth. rewrite linspace_length in Hnth.
  assert (Hpos : 0 < nth i (spot_range spot_price) 0).
  { apply (spot_range_pos _ _ _ _ _ _ _ in_range), nth_In.
    unfold spot_range. rewrite linspace_length. lia. }
  pose proof (delta_spot_mono (lower option_type)
                (nth i (spot_range spot_price) 0)
                (nth j (spot_range spot_price) 0)
                strike_price T sigma r q HK HT Hv Hpos) as Hm.
  unfold spot_range in Hm.
  rewrite (Hnth i 0 d ltac:(lia)), (Hnth j 0 d Hj) in Hm.
  unfold greek_of in Hm.
  apply Hm. apply linspace_nth_mono; [lra | exact Hij | exact Hj].
Qed.

Lemma page_is_call :
  (option_type = "Call" ->
     is_call (lower option_type) = true
     /\ String.eqb (lower option_type) "call" = true)
  /\ (option_type = "Put" ->
     is_call (lower option_type) = false
     /\ String.eqb (lower option_type) "call" = false).
Proof. split; intros ->; split; reflexivity. Qed.

(** X17. The time value shown is negative for a put so deep in the money
    that [spot < strike * (1 - exp (- r T))], and for a call with
    [strike < spot * (1 - exp (- q T))]. *)
Theorem time_value_negative :
  (option_type = "Put" /\ spot_price < strike_price * (1 - exp (- (r * T))))
  \/ (option_type = "Call"
      /\ strike_price < spot_price * (1 - exp (- (q * T)))) ->
  exists s,
    analysis option_type spot_price strike_price days_to_expiry volatility
      risk_free_rate dividend_yield = Returns s
    /\ shown_time_value s < 0.
Proof.
  intros Hcase.
  pose proof (page_spot_pos _ _ _ _ _ _ _ in_range) as HS.
  pose proof (page_strike_pos _ _ _ _ _ _ _ in_range) as HK.
  pose proof (page_time_pos _ _ _ _ _ _ _ in_range) as HT.
  pose proof (page_vol_pos _ _ _ _ _ _ _ in_range) as Hv.
  destruct analysis_fields as [s [Hs [Hp [_ [Hi Ht]]]]].
  exists s. split; [exact Hs |]. rewrite Ht, Hi.
  rewrite price_returns in Hp by assumption. injection Hp as Hp.
  pose proof (closed_form_bounds spot_price strike_price T sigma r q
                HK HS HT Hv) as [[_ [_ Hcu]] [_ [_ Hpu]]].
  cbv zeta in Hcu, Hpu.
  unfold intrinsic_value. rewrite py_max_Rmax.
  replace (- (r * T)) with (- r * T) in Hcase by ring.
  replace (- (q * T)) with (- q * T) in Hcase by ring.
  destruct Hcase as [[Ho Hd] | [Ho Hd]].
  - destruct page_is_call as [_ [Hc He]]; [exact Ho |].
    rewrite Hc in Hp. rewrite He. rewrite <- Hp.
    pose proof (Rmax_r 0 (strike_price - spot_price)). lra.
  - destruct page_is_call as [[Hc He] _]; [exact Ho |].
    rewrite Hc in Hp. rewrite He. rewrite <- Hp.
    pose proof (Rmax_r 0 (spot_price - strike_price)). lra.
Qed.

(** X18. The status and the intrinsic value shown agree: an option shown as
    ITM has an intrinsic value above 1% of the strike, one shown as OTM has
    intrinsic value zero, and one shown as ATM at most 1% of the strike. *)
Theorem moneyness_matches_intrinsic_value :
  exists s,
    analysis option_type spot_price strike_price days_to_expiry volatility
      risk_free_rate dividend_yield = Returns s
    /\ (shown_moneyness s = ITM ->
          0.01 * strike_price < shown_intrinsic_value s)
    /\ (shown_moneyness s = OTM -> shown_intrinsic_value s = 0)
    /\ (shown_moneyness s = ATM ->
          shown_intrinsic_value s <= 0.01 * strike_price).
Proof.
  pose proof (page_strike_pos _ _ _ _ _ _ _ in_range) as HK.
  destruct analysis_fields as [s [Hs [_ [Hm [Hi _]]]]].
  exists s. split; [exact Hs |]. rewrite Hi.
  unfold intrinsic_value. rewrite py_max_Rmax.
  unfold is_itm_atm_otm, py_div, bind in Hm.
  destruct (Req_EM_T strike_price 0); [lra |].
  assert (Hband : Rabs (spot_price - strike_price) / strike_price <= 0.01
                  <-> Rabs (spot_price - strike_price) <= 0.01 * strike_price).
  { split; intros H.
    - apply Rmult_le_compat_r with (r := strike_price) in H; [| lra].
      unfold Rdiv in H. rewrite Rmult_assoc, Rinv_l in H by lra. lra.
    - apply Rmult_le_reg_r with strike_price; [exact HK |].
      unfold Rdiv. rewrite Rmult_assoc, Rinv_l by lra. lra. }
  assert (Habs : forall x, Rabs x = Rmax x (- x)).
  { intros x. unfold Rabs, Rmax.
    destruct (Rcase_abs x), (Rle_dec x (- x)); lra. }
  assert (Hcase : (is_call (lower option_type) = true
                   /\ String.eqb (lower option_type) "call" = true)
                  \/ (is_call (lower option_type) = false
                      /\ String.eqb (lower option_type) "call" = false)).
  { destruct in_range as [[Ho | Ho] _].
    - left. apply page_is_call, Ho.
    - right. apply page_is_call, Ho. }
  destruct (Rle_dec (Rabs (spot_price - strike_price) / strike_price) 0.01)
    as [Ha | Ha].
  - injection Hm as <-. apply Hband in Ha. rewrite Habs in Ha.
    repeat split; try discriminate. intros _.
    pose proof (Rmax_l (spot_price - strike_price)
                  (- (spot_price - strike_price))).
    pose proof (Rmax_r (spot_price - strike_price)
                  (- (spot_price - strike_price))).
    destruct Hcase as [[_ ->] | [_ ->]]; apply Rmax_lub; lra.
  - assert (Hn : ~ Rmax (spot_price - strike_price)
                     (- (spot_price - strike_price)) <= 0.01 * strike_price)
      by (intros H; apply Ha, Hband; rewrite Habs; exact H).
    destruct Hcase as [[Hc ->] | [Hc ->]]; rewrite Hc in Hm.
    + destruct (Rlt_dec strike_price spot_price) as [Hlt | Hlt];
        injection Hm as <-; repeat split; try discriminate; intros _.
      * rewrite Rmax_left in Hn by lra.
        apply Rlt_le_trans with (spot_price - strike_price);
          [lra | apply Rmax_r].
      * apply Rmax_left. lra.
    + destruct (Rlt_dec spot_price strike_price) as [Hlt | Hlt];
        injection Hm as <-; repeat split; try discriminate; intros _.
      * rewrite Rmax_right in Hn by lra.
        apply Rlt_le_trans with (strike_price - spot_price);
          [lra | apply Rmax_r].
      * apply Rmax_left. lra.
Qed.

(** X20. The time sweep of the last chart starts one day before expiry and
    moves away from it without ever passing one year: its samples, in
    years, increase from [1/365] and stay at most [1]. *)
Theorem time_sweep_bounds :
  nth 0 (time_range days_to_expiry) 0 = 1 / 365
  /\ forall i j, (i <= j)%nat -> (j < 100)%nat ->
       1 / 365 <= nth i (time_range days_to_expiry) 0
       /\ nth i (time_range days_to_expiry) 0
          <= nth j (time_range days_to_expiry) 0
       /\ nth j (time_range days_to_expiry) 0 <= 1.
Proof.
  pose proof (page_days_stop _ _ _ _ _ _ _ in_range) as Hstop.
  assert (Hn : forall k, (k < 100)%nat ->
            nth k (time_range days_to_expiry) 0
            = nth k (days_range days_to_expiry) 0 / 365).
  { intros k Hk. unfold time_range.
    rewrite (nth_indep _ 0 ((fun d => d / 365) 0))
      by (rewrite length_map; unfold days_range; rewrite linspace_length;
          exact Hk).
    apply (map_nth (fun d => d / 365)). }
  split.
  - rewrite Hn by lia. unfold days_range. rewrite linspace_nth by lia.
    simpl. lra.
  - intros i j Hij Hj. rewrite !Hn by lia.
    pose proof (days_range_between _ _ _ _ _ _ _ in_range i ltac:(lia)) as Hi.
    pose proof (days_range_between _ _ _ _ _ _ _ in_range j Hj) as Hj'.
    assert (Hm : nth i (days_range days_to_expiry) 0
                 <= nth j (days_range days_to_expiry) 0).
    { unfold days_range. apply linspace_nth_mono; [lra | exact Hij | exact Hj]. }
    lra.
Qed.

End PageTheorems.

Lemma linspace_nth_anti (a b d : R) (n i j : nat) :
  b <= a -> (i <= j)%nat -> (j < n)%nat ->
  nth j (linspace a b n) d <= nth i (linspace a b n) d.
Proof.
  intros Hab Hij Hj. rewrite !linspace_nth by lia.
  assert (Hs : (b - a) / INR (n - 1) <= 0).
  { assert (0 <= (a - b) / INR (n - 1)).
    { apply Rmult_le_pos; [lra |].
      destruct (Nat.eq_dec (n - 1) 0) as [-> | Hn].
      - simpl. rewrite Rinv_0. lra.
      - apply Rlt_le, Rinv_0_lt_compat, lt_0_INR. lia. }
    unfold Rdiv in *. lra. }
  apply le_INR in Hij. nra.
Qed.

(** X19. The volatility sweep of the third chart runs upwards when the
    volatility widget shows at least 10/3 percent; below that it starts at
    the floor of 0.05 and runs downwards to 1.5 times the volatility. *)
Theorem vol_sweep_direction (volatility : R) :
  (10 / 3 <= volatility ->
     forall i j, (i <= j)%nat -> (j < 100)%nat ->
       nth i (vol_range volatility) 0 <= nth j (vol_range volatility) 0)
  /\ (volatility < 10 / 3 ->
      nth 0 (vol_range volatility) 0 = 0.05
      /\ nth 99 (vol_range volatility) 0 < 0.05
      /\ forall i j, (i <= j)%nat -> (j < 100)%nat ->
           nth j (vol_range volatility) 0 <= nth i (vol_range volatility) 0).
Proof.
  unfold vol_range, volatility_decimal. split.
  - intros Hv i j Hij Hj. apply linspace_nth_mono; [| exact Hij | exact Hj].
    unfold py_max. destruct (Rlt_dec 0.05 (volatility / 100 * 0.5)); lra.
  - intros Hv.
    assert (Hs : py_max 0.05 (volatility / 100 * 0.5) = 0.05).
    { unfold py_max. destruct (Rlt_dec 0.05 (volatility / 100 * 0.5)); lra. }
    rewrite Hs. split; [| split].
    + rewrite linspace_nth by lia. simpl. lra.
    + rewrite linspace_nth by lia.
      replace (INR 99) with 99 by (rewrite INR_IZR_INZ; reflexivity).
      replace (INR (100 - 1)) with 99 by (rewrite INR_IZR_INZ; reflexivity).
      lra.
    + intros i j Hij Hj. apply linspace_nth_anti; [lra | exact Hij | exact Hj].
Qed.

(** The widgets at their initial values, and at a deep in-the-money put. *)
Lemma initial_widgets : widgets_in_range "Call" 100 100 30 30 2.5 0.
Proof. unfold widgets_in_range. repeat split; try lra; try lia. left. reflexivity. Qed.

Lemma deep_put_widgets : widgets_in_range "Put" 1 10000 1000 30 10 0.
Proof. unfold widgets_in_range. repeat split; try lra; try lia. right. reflexivity. Qed.

Lemma exp_neg_le (x : R) : 0 <= x -> exp (- x) <= / (1 + x).
Proof.
  intros Hx. rewrite exp_Ropp. apply Rinv_le_contravar; [lra |].
  apply exp_ineq1_le.
Qed.

Lemma page_never_fails_witness :
  (exists s, analysis "Call" 100 100 30 30 2.5 0 = Returns s)
  /\ (exists l, price_vs_underlying 100 100 30 30 2.5 0 = Returns l
                /\ List.length l = 100%nat)
  /\ (exists l, greeks_vs_underlying "Call" 100 100 30 30 2.5 0 = Returns l
                /\ List.length l = 100%nat)
  /\ (exists l, greeks_vs_volatility "Call" 100 100 30 30 2.5 0 = Returns l
                /\ List.length l = 100%nat)
  /\ (exists l, greeks_vs_time "Call" 100 100 30 30 2.5 0 = Returns l
                /\ List.length l = 100%nat).
Proof. apply page_never_fails, initial_widgets. Defined.

Lemma delta_sweep_monotone_witness :
  exists l,
    greeks_vs_underlying "Call" 100 100 30 30 2.5 0 = Returns l
    /\ forall i j d, (i <= j)%nat -> (j < 100)%nat ->
         delta (nth i l d) <= delta (nth j l d).
Proof. apply delta_sweep_monotone, initial_widgets. Defined.

Lemma time_value_negative_witness :
  exists s,
    analysis "Put" 1 10000 1000 30 10 0 = Returns s /\ shown_time_value s < 0.
Proof.
  apply time_value_negative; [apply deep_put_widgets |].
  left. split; [reflexivity |].
  unfold risk_free_rate_decimal, time_to_expiry.
  pose proof (exp_neg_le (10 / 100 * (1000 / 365)) ltac:(lra)) as H.
  replace (/ (1 + 10 / 100 * (1000 / 365))) with (365 / 465) in H by lra.
  lra.
Defined.

Lemma moneyness_matches_intrinsic_value_witness :
  exists s,
    analysis "Call" 100 100 30 30 2.5 0 = Returns s
    /\ (shown_moneyness s = ITM -> 0.01 * 100 < shown_intrinsic_value s)
    /\ (shown_moneyness s = OTM -> shown_intrinsic_value s = 0)
    /\ (shown_moneyness s = ATM -> shown_intrinsic_value s <= 0.01 * 100).
Proof. apply moneyness_matches_intrinsic_value, initial_widgets. Defined.

Lemma time_sweep_bounds_witness :
  nth 0 (time_range 30) 0 = 1 / 365
  /\ forall i j, (i <= j)%nat -> (j < 100)%nat ->
       1 / 365 <= nth i (time_range 30) 0
       /\ nth i (time_range 30) 0 <= nth j (time_range 30) 0
       /\ nth j (time_range 30) 0 <= 1.
Proof. apply (time_sweep_bounds "Call" 100 100 30 30 2.5 0), initial_widgets. Defined.

(** * utils.py: the tooltips *)

(** [dict.get(key, default)] on a dictionary literal with distinct keys. *)
Fixpoint dict_get (d : list (string * string)) (key default : string) : string :=
  match d with
  | [] => default
  | (k, v) :: d' => if String.eqb key k then v else dict_get d' key default
  end.

Definition tooltips : list (string * string) :=
  [ ("option_type",
     "Call options give the right to buy the underlying asset at the strike price. Put options give the right to sell the underlying asset at the strike price.");
    ("spot_price", "The current market price of the underlying asset.");
    ("strike_price", "The price at which the option contract can be exercised.");
    ("days_to_expiry",
     "The number of calendar days until the option contract expires.");
    ("volatility",
     "The expected volatility of the underlying asset over the life of the option, expressed as an annualized percentage.");
    ("risk_free_rate",
     "The interest rate of a risk-free investment, generally based on government securities.");
    ("dividend_yield",
     "The annual dividend yield of the underlying asset, expressed as a percentage.") ].

Definition get_tooltip (field : string) : string := dict_get tooltips field "".

Lemma dict_get_missing (d : list (string * string)) (key default : string) :
  ~ In key (map fst d) -> dict_get d key default = default.
Proof.
  induction d as [| [k v] d IH]; intros Hk; [reflexivity |].
  simpl in *. destruct (String.eqb_spec key k) as [-> | Hne].
  - exfalso. apply Hk. left. reflexivity.
  - apply IH. intros H. apply Hk. right. exact H.
Qed.

Lemma dict_get_present (d : list (string * string)) (key default : string) :
  In key (map fst d) -> In (dict_get d key default) (map snd d).
Proof.
  induction d as [| [k v] d IH]; intros Hk; [contradiction |].
  simpl in *. destruct (String.eqb_spec key k) as [-> | Hne].
  - left. reflexivity.
  - right. apply IH. destruct Hk as [Hk | Hk]; [congruence | exact Hk].
Qed.

(** X21. [get_tooltip] answers the empty string exactly for the field names
    it does not know; each of the seven names the page asks for has a text,
    and no exception is raised for an unknown name. *)
Theorem get_tooltip_empty_iff_unknown (field : string) :
  get_tooltip field = ""
  <-> ~ In field
        ["option_type"; "spot_price"; "strike_price"; "days_to_expiry";
         "volatility"; "risk_free_rate"; "dividend_yield"].
Proof.
  unfold get_tooltip. split.
  - intros He Hin.
    apply (dict_get_present tooltips field "") in Hin. rewrite He in Hin.
    simpl in Hin. repeat (destruct Hin as [Hin | Hin]; [discriminate |]).
    exact Hin.
  - intros Hn. apply dict_get_missing. exact Hn.
Qed.
